(** * TemperatureScale: scale-tagged temperature quantities

    A shallow embedding of [src/main.cpp].  The C++ program works on
    [double]; here [double] is the kernel's primitive binary64 type
    [PrimFloat.float] (IEEE 754, round to nearest, ties to even, no excess
    precision), so every arithmetic step of the program is an executable
    Rocq term that rounds as the compiled program does.

    The program text is translated once, over an interface [Arith] of the
    arithmetic it uses ([+], [-], [*], [/], [std::abs], [<] and numeric
    literals).  Two instances are given: [binary64] is the program as it
    runs, [exact] reads the same formulas over the rationals and is used
    only where a statement is explicitly about exact arithmetic. *)

From Stdlib Require Import ZArith QArith Qabs Reals Bool List Lia Lra.
Import ListNotations.
From Stdlib Require Import Floats.

Set Warnings "-inexact-float".

(** ** The arithmetic the program uses *)

Class Arith (real : Type) : Type := {
  add : real -> real -> real;
  sub : real -> real -> real;
  mul : real -> real -> real;
  div : real -> real -> real;
  fabs : real -> real;            (* std::abs *)
  ltb : real -> real -> bool;     (* operator< on double *)
  lit : Q -> real                 (* a decimal literal of the program text *)
}.

Declare Scope arith_scope.
Delimit Scope arith_scope with ar.
Infix "+" := add : arith_scope.
Infix "-" := sub : arith_scope.
Infix "*" := mul : arith_scope.
Infix "/" := div : arith_scope.
Infix "<?" := ltb : arith_scope.

(** A decimal literal [n/d] of the source denotes the double nearest to it.
    Numerator and denominator are integers below [2^53], hence doubles
    themselves, and IEEE division is correctly rounded: the quotient of the
    two is that nearest double. *)
Definition double_of_literal (q : Q) : float :=
  let den := PrimFloat.of_uint63 (Uint63.of_Z (Zpos (Qden q))) in
  match Qnum q with
  | Z0 => PrimFloat.zero
  | Zpos n => PrimFloat.div (PrimFloat.of_uint63 (Uint63.of_Z (Zpos n))) den
  | Zneg n =>
      PrimFloat.opp (PrimFloat.div (PrimFloat.of_uint63 (Uint63.of_Z (Zpos n))) den)
  end.

#[export] Instance binary64 : Arith float := {
  add := PrimFloat.add;
  sub := PrimFloat.sub;
  mul := PrimFloat.mul;
  div := PrimFloat.div;
  fabs := PrimFloat.abs;
  ltb := PrimFloat.ltb;
  lit := double_of_literal
}.

Definition Qltb (a b : Q) : bool :=
  (Qnum a * Zpos (Qden b) <? Qnum b * Zpos (Qden a))%Z.

#[export] Instance exact : Arith Q := {
  add := Qplus;
  sub := Qminus;
  mul := Qmult;
  div := Qdiv;
  fabs := Qabs;
  ltb := Qltb;
  lit := fun q => q
}.

(** ** The program *)

Section Program.

Context {real : Type} {arith : Arith real}.
Local Open Scope arith_scope.

(** [const double EPSILON = 0.001;] *)
Definition EPSILON : real := lit 0.001.

(** [bool AreEqual(double d1, double d2)] *)
Definition AreEqual (d1 d2 : real) : bool := fabs (d1 - d2) <? EPSILON.

(** [enum class Scale] *)
Inductive Scale : Set := CELSIUS | FAHRENHEIT | KELVIN.

(** [template <Scale S> class Quantity]: one constant [amount], and the
    scale as a type index, so that quantities of two scales have two
    types.  [amount] is also the explicit [operator double()]. *)
Record Quantity (S : Scale) : Type := mkQuantity { amount : real }.
Arguments mkQuantity S amount : clear implicits.
Arguments amount {S} q.

Definition operator_eq {S : Scale} (lhs rhs : Quantity S) : bool :=
  AreEqual (amount lhs) (amount rhs).

Definition operator_ne {S : Scale} (lhs rhs : Quantity S) : bool :=
  negb (operator_eq lhs rhs).

(** The ordering operators.  The body of [operator<] is the call
    [lhs < rhs] on the same two quantities, which resolves to
    [operator<] itself.  Every call consumes one unit of [fuel]; [None]
    means that the fuel ran out before a value was returned. *)
Fixpoint operator_lt (fuel : nat) {S : Scale} (lhs rhs : Quantity S)
  : option bool :=
  match fuel with
  | O => None
  | Datatypes.S fuel' => operator_lt fuel' lhs rhs
  end.

Definition operator_gt (fuel : nat) {S : Scale} (lhs rhs : Quantity S)
  : option bool :=
  match fuel with
  | O => None
  | Datatypes.S fuel' => operator_lt fuel' rhs lhs
  end.

Definition operator_le (fuel : nat) {S : Scale} (lhs rhs : Quantity S)
  : option bool :=
  match fuel with
  | O => None
  | Datatypes.S fuel' => option_map negb (operator_gt fuel' lhs rhs)
  end.

Definition operator_ge (fuel : nat) {S : Scale} (lhs rhs : Quantity S)
  : option bool :=
  match fuel with
  | O => None
  | Datatypes.S fuel' => option_map negb (operator_lt fuel' lhs rhs)
  end.

Definition operator_add {S : Scale} (q1 q2 : Quantity S) : Quantity S :=
  mkQuantity S (amount q1 + amount q2).

Definition operator_sub {S : Scale} (q1 q2 : Quantity S) : Quantity S :=
  mkQuantity S (amount q1 - amount q2).

(** [template <Scale S, Scale R> struct ConversionTraits]: the static
    member [Convert] of the specialisation for source scale [S] and
    target scale [R].  The primary template declares [Convert] as
    deleted: [None]. *)
Definition ConversionTraits (S R : Scale) : option (real -> real) :=
  match S, R with
  | CELSIUS, KELVIN => Some (fun value => value + lit 273.15)
  | KELVIN, CELSIUS => Some (fun value => value - lit 273.15)
  | CELSIUS, FAHRENHEIT => Some (fun value => (value * lit 9) / lit 5 + lit 32)
  | FAHRENHEIT, CELSIUS => Some (fun value => (value - lit 32) * lit 5 / lit 9)
  | FAHRENHEIT, KELVIN => Some (fun value => (value + lit 459.67) * lit 5 / lit 9)
  | KELVIN, FAHRENHEIT => Some (fun value => (value * lit 9) / lit 5 - lit 459.67)
  | _, _ => None
  end.

(** [template <Scale R, Scale S> Quantity<R> temperature_cast(const
    Quantity<S>&)].  Instantiating the template at [R] and [S] is the
    compiler's work and involves no quantity: it yields the function the
    program then runs, or nothing when the body names a deleted
    [Convert]. *)
Definition temperature_cast (R S : Scale) : option (Quantity S -> Quantity R) :=
  match ConversionTraits S R with
  | Some Convert => Some (fun q => mkQuantity R (Convert (amount q)))
  | None => None
  end.

(** [namespace temperature_scale_literals].  The literal operators take a
    [long double] and cast it to [double]; the argument here is the
    double obtained. *)
Definition _deg (amount : real) : Quantity CELSIUS := mkQuantity CELSIUS amount.
Definition _f (amount : real) : Quantity FAHRENHEIT := mkQuantity FAHRENHEIT amount.
Definition _k (amount : real) : Quantity KELVIN := mkQuantity KELVIN amount.

(** How a run of [main] ends: it returns a status, or an [assert] fails
    (the number is the source line of the assertion). *)
Inductive outcome : Set :=
| Exit (status : Z)
| AssertionFailed (line : nat).

Definition assert (line : nat) (cond : bool) (rest : outcome) : outcome :=
  if cond then rest else AssertionFailed line.

(** [temperature_cast<R>(q)] as an expression of a program: the value of
    the instantiated function at [q], if the instantiation exists. *)
Definition cast_value (R : Scale) {S : Scale} (q : Quantity S)
  : option (Quantity R) :=
  match temperature_cast R S with
  | Some cast => Some (cast q)
  | None => None
  end.

(** [ConversionTraits<S, R>::Convert(value)], likewise. *)
Definition Convert (S R : Scale) (value : real) : option real :=
  match ConversionTraits S R with
  | Some convert => Some (convert value)
  | None => None
  end.

(** The round trip of the blocks of [main]: cast [t] to scale [T], cast
    the result back to the scale [S] of [t], and compare with [t]. *)
Definition round_trip {S : Scale} (T : Scale) (t : Quantity S) : option bool :=
  match cast_value T t with
  | Some there =>
      match cast_value S there with
      | Some back => Some (operator_eq t back)
      | None => None
      end
  | None => None
  end.

(** [int main()]: [None] if one of the six instantiations of
    [temperature_cast] it names does not exist, otherwise the outcome of
    the run. *)
Definition main : option outcome :=
  match temperature_cast FAHRENHEIT CELSIUS, temperature_cast CELSIUS FAHRENHEIT,
        temperature_cast KELVIN CELSIUS, temperature_cast CELSIUS KELVIN,
        temperature_cast KELVIN FAHRENHEIT, temperature_cast FAHRENHEIT KELVIN with
  | Some c_to_f, Some f_to_c, Some c_to_k, Some k_to_c, Some f_to_k, Some k_to_f =>
      let t1 := _deg (lit 36.5) in
      let t2 := _f (lit 79.0) in
      let t3 := _k (lit 100.0) in
      Some (
        let tf := c_to_f t1 in
        let tc := f_to_c tf in
        assert 146 (operator_eq t1 tc) (
        let tk := c_to_k t1 in
        let tc := k_to_c tk in
        assert 152 (operator_eq t1 tc) (
        let tc := f_to_c t2 in
        let tf := c_to_f tc in
        assert 158 (operator_eq t2 tf) (
        let tk := f_to_k t2 in
        let tf := k_to_f tk in
        assert 164 (operator_eq t2 tf) (
        let tc := k_to_c t3 in
        let tk := c_to_k tc in
        assert 170 (operator_eq t3 tk) (
        let tf := k_to_f t3 in
        let tk := f_to_k tf in
        assert 176 (operator_eq t3 tk) (
        Exit 0)))))))
  | _, _, _, _, _, _ => None
  end.

End Program.

Arguments Scale : clear implicits.
Arguments Quantity real S : clear implicits.
Arguments mkQuantity {real} S amount.
Arguments amount {real S} q.
Arguments outcome : clear implicits.


(** * Binary64 arithmetic

    The operations on [float] are specified by the Standard Library through
    [Prim2SF] and the functions [SFadd], [SFsub], [SFmul], [SFdiv],
    [SFcompare] of [SpecFloat].  This part derives from those functions what
    the statements about arbitrary doubles below need: the distance between
    the result of an operation and the real number it rounds, when no
    overflow occurs, and the meaning of the comparisons. *)

Module B64.

Local Open Scope R_scope.

(** ** Powers of two *)

Definition bpow (e : Z) : R := powerRZ 2 e.

Lemma bpow_pos e : 0 < bpow e.
Proof. apply powerRZ_lt; lra. Qed.

Lemma bpow_add a b : bpow (a + b) = bpow a * bpow b.
Proof. apply powerRZ_add; lra. Qed.

Lemma bpow_0 : bpow 0 = 1.
Proof. reflexivity. Qed.

Lemma bpow_1 : bpow 1 = 2.
Proof. unfold bpow; simpl; lra. Qed.

Lemma bpow_m1 : bpow (-1) = / 2.
Proof. unfold bpow; simpl; f_equal; lra. Qed.

Lemma bpow_succ e : bpow (e + 1) = 2 * bpow e.
Proof. rewrite bpow_add, bpow_1; lra. Qed.

Lemma bpow_pred e : bpow (e - 1) = bpow e / 2.
Proof.
  replace (e - 1)%Z with (e + -1)%Z by lia.
  rewrite bpow_add, bpow_m1; lra.
Qed.

Lemma bpow_sub a b : bpow (a - b) = bpow a / bpow b.
Proof.
  assert (H := bpow_add (a - b) b). replace (a - b + b)%Z with a in H by lia.
  pose proof (bpow_pos b). rewrite H. field. lra.
Qed.

Lemma bpow_ge_1 n : (0 <= n)%Z -> 1 <= bpow n.
Proof.
  intros Hn. pattern n. apply natlike_ind; [rewrite bpow_0; lra| |exact Hn].
  intros x Hx IH. unfold Z.succ. rewrite bpow_succ. lra.
Qed.

Lemma bpow_le a b : (a <= b)%Z -> bpow a <= bpow b.
Proof.
  intros H. replace b with (a + (b - a))%Z by lia. rewrite bpow_add.
  pose proof (bpow_pos a). pose proof (bpow_ge_1 (b - a) ltac:(lia)). nra.
Qed.

Lemma bpow_lt_inv a b : bpow a < bpow b -> (a < b)%Z.
Proof.
  intros H. destruct (Z_lt_le_dec a b) as [|Hle]; [assumption|].
  apply bpow_le in Hle. lra.
Qed.

Lemma bpow_IZR n : (0 <= n)%Z -> bpow n = IZR (2 ^ n).
Proof.
  intros Hn. pattern n. apply natlike_ind; [reflexivity| |exact Hn].
  intros x Hx IH. rewrite Z.pow_succ_r by assumption. unfold Z.succ.
  rewrite bpow_succ, IH, mult_IZR. reflexivity.
Qed.

(** ** The number of binary digits of a mantissa *)

Lemma digits2_pos_size p : digits2_pos p = Pos.size p.
Proof. induction p; simpl; congruence. Qed.

Lemma digits2_Zpos_bounds (p : positive) :
  (2 ^ (Zpos (digits2_pos p) - 1) <= Zpos p < 2 ^ Zpos (digits2_pos p))%Z.
Proof.
  rewrite digits2_pos_size.
  pose proof (Pos.size_gt p) as Hgt. pose proof (Pos.size_le p) as Hle.
  apply Pos2Z.pos_lt_pos in Hgt. apply Pos2Z.pos_le_pos in Hle.
  rewrite Pos2Z.inj_pow in Hgt, Hle.
  split; [|exact Hgt].
  replace (Zpos (Pos.size p)) with (Z.succ (Zpos (Pos.size p) - 1)) in Hle by lia.
  rewrite Z.pow_succ_r in Hle by lia. lia.
Qed.

Lemma Zdigits2_bounds m : (0 < m)%Z ->
  (2 ^ (Zdigits2 m - 1) <= m < 2 ^ Zdigits2 m)%Z /\ (0 < Zdigits2 m)%Z.
Proof.
  destruct m as [|p|p]; try lia. intros _. simpl Zdigits2.
  split; [apply digits2_Zpos_bounds | lia].
Qed.

Lemma Zdigits2_le m d : (0 <= d)%Z -> (0 <= m < 2 ^ d)%Z -> (Zdigits2 m <= d)%Z.
Proof.
  intros Hd [H0 Hm]. destruct (Z.eq_dec m 0) as [->|Hne]; [simpl; lia|].
  destruct (Zdigits2_bounds m ltac:(lia)) as [[Hlo _] Hpos].
  destruct (Z_lt_le_dec d (Zdigits2 m)) as [Hlt|]; [|assumption].
  assert (2 ^ d <= 2 ^ (Zdigits2 m - 1))%Z by (apply Z.pow_le_mono_r; lia). lia.
Qed.

Lemma Zdigits2_pow2 d : (0 <= d)%Z -> Zdigits2 (2 ^ d) = (d + 1)%Z.
Proof.
  intros Hd. assert (Hp : (0 < 2 ^ d)%Z) by (apply Z.pow_pos_nonneg; lia).
  destruct (Zdigits2_bounds _ Hp) as [[Hlo Hhi] Hpos].
  apply Z.pow_lt_mono_r_iff in Hhi; try lia.
  apply Z.pow_le_mono_r_iff in Hlo; try lia.
Qed.

Lemma Rabs_le_inv a b : Rabs a <= b -> - b <= a <= b.
Proof.
  unfold Rabs. destruct (Rcase_abs a); lra.
Qed.

(** ** Locations and right shifts

    A mantissa [m] with a location [l] stands for a real [y] of
    [[m, m + 1)]: [m] itself, or a point below, at or above [m + 1/2]. *)

Definition located (m : Z) (l : location) (y : R) : Prop :=
  match l with
  | loc_Exact => y = IZR m
  | loc_Inexact Lt => IZR m < y < IZR m + / 2
  | loc_Inexact Eq => y = IZR m + / 2
  | loc_Inexact Gt => IZR m + / 2 < y < IZR m + 1
  end.

Definition located_rec (mrs : shr_record) (y : R) : Prop :=
  located (shr_m mrs) (loc_of_shr_record mrs) y.

Lemma located_range m l y : located m l y -> IZR m <= y < IZR m + 1.
Proof. destruct l as [|[]]; simpl; lra. Qed.

Lemma located_rec_of_loc m l y :
  located_rec (shr_record_of_loc m l) y <-> located m l y.
Proof. destruct l as [|[]]; reflexivity. Qed.

Lemma shr_m_of_loc m l : shr_m (shr_record_of_loc m l) = m.
Proof. destruct l as [|[]]; reflexivity. Qed.

Lemma IZR_xO p : IZR (Zpos p~0) = 2 * IZR (Zpos p).
Proof. rewrite Pos2Z.inj_xO, mult_IZR. reflexivity. Qed.

Lemma IZR_xI p : IZR (Zpos p~1) = 2 * IZR (Zpos p) + 1.
Proof. rewrite Pos2Z.inj_xI, plus_IZR, mult_IZR. reflexivity. Qed.

Lemma Zpos_xO_div2 p : (Zpos p~0 / 2 = Zpos p)%Z.
Proof. rewrite Pos2Z.inj_xO, Z.mul_comm, Z.div_mul by lia. reflexivity. Qed.

Lemma Zpos_xI_div2 p : (Zpos p~1 / 2 = Zpos p)%Z.
Proof.
  rewrite Pos2Z.inj_xI, Z.mul_comm, Z.div_add_l by lia. reflexivity.
Qed.

Lemma shr_1_located mrs y :
  (0 <= shr_m mrs)%Z -> located_rec mrs y ->
  located_rec (shr_1 mrs) (y / 2) /\ shr_m (shr_1 mrs) = (shr_m mrs / 2)%Z.
Proof.
  destruct mrs as [m r s]. cbn [shr_m]. intros Hm.
  unfold located_rec.
  destruct m as [|[p|p|]|p]; try lia;
    destruct r, s; cbn [shr_1 orb shr_m loc_of_shr_record located];
    try rewrite (IZR_xO p); try rewrite (IZR_xI p);
    try rewrite (Zpos_xO_div2 p); try rewrite (Zpos_xI_div2 p);
    intros H; (split; [lra | reflexivity]).
Qed.

Lemma Zpos_xO_double p : Zpos p~0 = (Zpos p + Zpos p)%Z.
Proof. lia. Qed.

Lemma Zpos_xI_double p : Zpos p~1 = (Zpos p + Zpos p + 1)%Z.
Proof. lia. Qed.

Lemma pow2_xO p : (2 ^ Zpos p~0 = 2 ^ Zpos p * 2 ^ Zpos p)%Z.
Proof. rewrite (Zpos_xO_double p). apply Z.pow_add_r; lia. Qed.

Lemma pow2_xI p : (2 ^ Zpos p~1 = 2 * (2 ^ Zpos p * 2 ^ Zpos p))%Z.
Proof.
  rewrite (Zpos_xI_double p).
  rewrite Z.add_1_r, Z.pow_succ_r, Z.pow_add_r by lia. reflexivity.
Qed.

Lemma bpow_xO p : bpow (Zpos p~0) = bpow (Zpos p) * bpow (Zpos p).
Proof. rewrite (Zpos_xO_double p). apply bpow_add. Qed.

Lemma bpow_xI p : bpow (Zpos p~1) = 2 * (bpow (Zpos p) * bpow (Zpos p)).
Proof.
  rewrite (Zpos_xI_double p), bpow_succ, bpow_add. reflexivity.
Qed.

Lemma iter_shr_1_located p : forall mrs y,
  (0 <= shr_m mrs)%Z -> located_rec mrs y ->
  located_rec (iter_pos shr_1 p mrs) (y / bpow (Zpos p)) /\
  shr_m (iter_pos shr_1 p mrs) = (shr_m mrs / 2 ^ Zpos p)%Z.
Proof.
  induction p as [p IH|p IH|]; intros mrs y Hm Hy; simpl iter_pos.
  - destruct (shr_1_located mrs y Hm Hy) as [H1 E1].
    assert (Hm1 : (0 <= shr_m (shr_1 mrs))%Z) by (rewrite E1; apply Z.div_pos; lia).
    destruct (IH _ _ Hm1 H1) as [H2 E2].
    assert (Hm2 : (0 <= shr_m (iter_pos shr_1 p (shr_1 mrs)))%Z)
      by (rewrite E2; apply Z.div_pos; [lia | apply Z.pow_pos_nonneg; lia]).
    destruct (IH _ _ Hm2 H2) as [H3 E3].
    split.
    + replace (y / bpow (Zpos p~1)) with (y / 2 / bpow (Zpos p) / bpow (Zpos p)); [exact H3|].
      rewrite (bpow_xI p). pose proof (bpow_pos (Zpos p)). field. lra.
    + rewrite E3, E2, E1. rewrite !Z.div_div by (try apply Z.pow_pos_nonneg; lia).
      f_equal. symmetry. apply pow2_xI.
  - destruct (IH _ _ Hm Hy) as [H2 E2].
    assert (Hm2 : (0 <= shr_m (iter_pos shr_1 p mrs))%Z)
      by (rewrite E2; apply Z.div_pos; [lia | apply Z.pow_pos_nonneg; lia]).
    destruct (IH _ _ Hm2 H2) as [H3 E3].
    split.
    + replace (y / bpow (Zpos p~0)) with (y / bpow (Zpos p) / bpow (Zpos p)); [exact H3|].
      rewrite (bpow_xO p). pose proof (bpow_pos (Zpos p)). field. lra.
    + rewrite E3, E2. rewrite !Z.div_div by (try apply Z.pow_pos_nonneg; lia).
      f_equal. symmetry. apply pow2_xO.
  - destruct (shr_1_located mrs y Hm Hy) as [H1 E1]. rewrite bpow_1. split; assumption.
Qed.

(** What [shr] computes: the mantissa is divided by [2 ^ n] and the
    location follows. *)
Lemma shr_located mrs e n y :
  (0 <= shr_m mrs)%Z -> located_rec mrs y ->
  let e' := Z.max e (e + n) in
  snd (shr mrs e n) = e' /\
  located_rec (fst (shr mrs e n)) (y / bpow (e' - e)) /\
  shr_m (fst (shr mrs e n)) = (shr_m mrs / 2 ^ (e' - e))%Z.
Proof.
  intros Hm Hy e'.
  assert (Hid : located_rec mrs (y / bpow 0) /\ shr_m mrs = (shr_m mrs / 2 ^ 0)%Z).
  { rewrite bpow_0, Z.pow_0_r, Z.div_1_r. split; [|reflexivity].
    replace (y / 1) with y by field. assumption. }
  destruct n as [|p|p]; cbn [shr fst snd].
  - replace e' with e by lia. rewrite Z.sub_diag. split; [reflexivity | exact Hid].
  - replace e' with (e + Zpos p)%Z by lia.
    replace (e + Zpos p - e)%Z with (Zpos p) by lia.
    split; [reflexivity|]. apply iter_shr_1_located; assumption.
  - replace e' with e by lia. rewrite Z.sub_diag. split; [reflexivity | exact Hid].
Qed.

Lemma round_nearest_even_located m l y :
  located m l y ->
  let m' := round_nearest_even m l in
  (m' = m \/ m' = m + 1)%Z /\ Rabs (IZR m' - y) <= / 2 /\ (l = loc_Exact -> IZR m' = y).
Proof.
  intros H m'. subst m'. destruct l as [|[]]; cbn [round_nearest_even located] in *.
  - subst y. split; [lia|split; [|reflexivity]].
    rewrite Rminus_diag, Rabs_R0. lra.
  - subst y. destruct (Z.even m); (split; [lia|split; [|discriminate]]);
      rewrite ?plus_IZR; apply Rabs_le; lra.
  - split; [lia|split; [|discriminate]]. apply Rabs_le; lra.
  - split; [lia|split; [|discriminate]]. rewrite plus_IZR. apply Rabs_le; lra.
Qed.

(** ** The real value of a [spec_float] *)

Definition SFmag (x : spec_float) : R :=
  match x with
  | S754_finite _ m e => IZR (Zpos m) * bpow e
  | _ => 0
  end.

Definition SFsignbit (x : spec_float) : bool :=
  match x with
  | S754_zero s | S754_infinity s | S754_finite s _ _ => s
  | S754_nan => false
  end.

Definition SF2R (x : spec_float) : R :=
  if SFsignbit x then - SFmag x else SFmag x.

Definition SFfinite (x : spec_float) : bool :=
  match x with
  | S754_zero _ | S754_finite _ _ _ => true
  | _ => false
  end.

(** ** Rounding to nearest even *)

Lemma fexp64 e : fexp prec emax e = Z.max (e - 53) (-1074).
Proof. reflexivity. Qed.

(** The first normalisation of [binary_round_aux]: the exponent becomes
    [fexp] of the magnitude, if that is larger, and at most 53 bits of
    mantissa are left. *)
Lemma shr_fexp_located mx ex lx y :
  (0 <= mx)%Z -> located mx lx y ->
  let e' := Z.max ex (fexp prec emax (Zdigits2 mx + ex)) in
  snd (shr_fexp prec emax mx ex lx) = e' /\
  located_rec (fst (shr_fexp prec emax mx ex lx)) (y / bpow (e' - ex)) /\
  shr_m (fst (shr_fexp prec emax mx ex lx)) = (mx / 2 ^ (e' - ex))%Z /\
  (0 <= shr_m (fst (shr_fexp prec emax mx ex lx)) < 2 ^ 53)%Z.
Proof.
  intros Hm Hy e'. unfold shr_fexp.
  set (n := (fexp prec emax (Zdigits2 mx + ex) - ex)%Z).
  assert (He' : e' = Z.max ex (ex + n)) by (unfold e', n; f_equal; lia).
  assert (H0 : (0 <= shr_m (shr_record_of_loc mx lx))%Z) by (rewrite shr_m_of_loc; exact Hm).
  destruct (shr_located (shr_record_of_loc mx lx) ex n y H0) as (E & L & M).
  { apply located_rec_of_loc; exact Hy. }
  rewrite <- He' in E, L, M. rewrite shr_m_of_loc in M.
  split; [exact E|]. split; [exact L|]. split; [exact M|].
  rewrite M.
  assert (Hpow : (0 < 2 ^ (e' - ex))%Z) by (apply Z.pow_pos_nonneg; lia).
  split; [apply Z.div_pos; lia|].
  apply Z.div_lt_upper_bound; [exact Hpow|].
  rewrite <- Z.pow_add_r by lia.
  destruct (Z.eq_dec mx 0) as [->|Hne]; [apply Z.pow_pos_nonneg; lia|].
  destruct (Zdigits2_bounds mx ltac:(lia)) as [[_ Hhi] Hd].
  eapply Z.lt_le_trans; [exact Hhi|].
  apply Z.pow_le_mono_r; [lia|].
  unfold e'. rewrite fexp64. lia.
Qed.

(** The second normalisation of [binary_round_aux] keeps the value. *)
Lemma shr_fexp_renormalise m e :
  (0 <= m <= 2 ^ 53)%Z -> (-1074 <= e)%Z ->
  let r := shr_fexp prec emax m e loc_Exact in
  (e <= snd r <= e + 1)%Z /\ (0 <= shr_m (fst r))%Z /\
  IZR (shr_m (fst r)) * bpow (snd r) = IZR m * bpow e.
Proof.
  intros Hm He r.
  destruct (shr_fexp_located m e loc_Exact (IZR m) ltac:(lia) eq_refl) as (E & _ & M & B).
  fold r in E, M, B. rewrite E, M. clear E M.
  destruct (Z.eq_dec m (2 ^ 53)) as [->|Hne].
  - rewrite (Zdigits2_pow2 53) by lia. rewrite fexp64.
    replace (Z.max e (Z.max (53 + 1 + e - 53) (-1074))) with (e + 1)%Z by lia.
    replace (e + 1 - e)%Z with 1%Z by lia.
    split; [lia|]. split; [apply Z.div_pos; lia|].
    change (2 ^ 53 / 2 ^ 1)%Z with (2 ^ 52)%Z.
    rewrite bpow_succ. change (2 ^ 53)%Z with (2 * 2 ^ 52)%Z. rewrite mult_IZR. ring.
  - assert (Hd : (Zdigits2 m <= 53)%Z) by (apply Zdigits2_le; lia).
    rewrite fexp64.
    replace (Z.max e (Z.max (Zdigits2 m + e - 53) (-1074))) with e by lia.
    rewrite Z.sub_diag, Z.pow_0_r, Z.div_1_r. split; [lia|]. split; [lia|reflexivity].
Qed.

(** [r] is a finite number of sign [sx] whose magnitude is within [delta]
    of the non-negative real [x]. *)
Definition rounds_to (sx : bool) (r : spec_float) (x delta : R) : Prop :=
  SFfinite r = true /\ SFsignbit r = sx /\ Rabs (SFmag r - x) <= delta.

(** Rounding a located mantissa: below [2 ^ k] the result is finite, for
    [k <= 970], and half a unit in the last place, [2 ^ (k - 54)], away from
    the real at most. *)
Lemma binary_round_aux_correct sx mx ex lx x k :
  (0 <= mx)%Z -> located mx lx (x / bpow ex) -> x < bpow k ->
  (-1021 <= k <= 970)%Z ->
  (lx = loc_Exact /\ (0 < mx)%Z) \/ (ex <= k - 53)%Z ->
  rounds_to sx (binary_round_aux prec emax sx mx ex lx) x (bpow (k - 54)).
Proof.
  intros Hmx Hloc Hxk Hk Hcase.
  assert (Hx0 : IZR mx * bpow ex <= x).
  { apply located_range in Hloc. pose proof (bpow_pos ex) as Hb.
    destruct Hloc as [Hlo _]. apply (Rmult_le_compat_r (bpow ex)) in Hlo; [|lra].
    replace (x / bpow ex * bpow ex) with x in Hlo by (field; lra). exact Hlo. }
  unfold binary_round_aux.
  destruct (shr_fexp_located mx ex lx _ Hmx Hloc) as (E1 & L1 & M1 & B1).
  destruct (shr_fexp prec emax mx ex lx) as [mrs' e'] eqn:Hs1.
  cbn [fst snd] in E1, L1, M1, B1.
  rewrite <- E1 in L1, M1.
  replace (x / bpow ex / bpow (e' - ex)) with (x / bpow e') in L1.
  2:{ rewrite bpow_sub. pose proof (bpow_pos ex). pose proof (bpow_pos e'). field. lra. }
  destruct (round_nearest_even_located _ _ _ L1) as (R1 & R2 & R3).
  set (m2 := round_nearest_even (shr_m mrs') (loc_of_shr_record mrs')) in *.
  rewrite fexp64 in E1.
  assert (He'min : (-1074 <= e')%Z) by lia.
  destruct (shr_fexp_renormalise m2 e' ltac:(lia) He'min) as (E2 & P2 & V2).
  destruct (shr_fexp prec emax m2 e' loc_Exact) as [mrs'' e''] eqn:Hs2.
  cbn [fst snd] in E2, P2, V2.
  (* the rounded value and its distance to [x] *)
  pose proof (bpow_pos e') as Hbe'.
  assert (Herr : Rabs (IZR m2 * bpow e' - x) <= bpow e' / 2).
  { replace (IZR m2 * bpow e' - x) with ((IZR m2 - x / bpow e') * bpow e') by (field; lra).
    rewrite Rabs_mult, (Rabs_pos_eq (bpow e')) by lra.
    apply Rmult_le_compat_r with (r := bpow e') in R2; lra. }
  assert (Hdelta : Rabs (IZR m2 * bpow e' - x) <= bpow (k - 54)).
  { destruct (Z_le_gt_dec e' (k - 53)) as [Hle|Hgt].
    - eapply Rle_trans; [exact Herr|].
      rewrite <- bpow_pred. apply bpow_le. lia.
    - (* no bit was shifted out of an exact mantissa *)
      destruct Hcase as [[-> Hpos]|Hex].
      + assert (Hd : (Zdigits2 mx + ex <= k)%Z).
        { destruct (Zdigits2_bounds mx Hpos) as [[Hlo _] Hd].
          apply IZR_le in Hlo. rewrite <- bpow_IZR in Hlo by lia.
          apply Rmult_le_compat_r with (r := bpow ex) in Hlo; [|pose proof (bpow_pos ex); lra].
          rewrite <- bpow_add in Hlo.
          assert (Hlt : bpow (Zdigits2 mx - 1 + ex) < bpow k) by lra.
          apply bpow_lt_inv in Hlt. lia. }
        assert (Hee : e' = ex) by lia. clear E1. subst e'.
        rewrite Z.sub_diag, Z.pow_0_r, Z.div_1_r in M1.
        assert (Hl : loc_of_shr_record mrs' = loc_Exact).
        { unfold shr_fexp in Hs1. rewrite fexp64 in Hs1.
          destruct (Z.max (Zdigits2 mx + ex - 53) (-1074) - ex)%Z eqn:Hn;
            cbn [shr] in Hs1; try lia; inversion Hs1; reflexivity. }
        rewrite (R3 Hl). replace (x / bpow ex * bpow ex - x) with 0 by (field; lra).
        rewrite Rabs_R0. pose proof (bpow_pos (k - 54)). lra.
      + exfalso.
        assert (Hd : (Zdigits2 mx + ex <= k)%Z).
        { destruct (Z.eq_dec mx 0) as [->|Hne]; [simpl; lia|].
          destruct (Zdigits2_bounds mx ltac:(lia)) as [[Hlo _] Hd].
          apply IZR_le in Hlo. rewrite <- bpow_IZR in Hlo by lia.
          apply Rmult_le_compat_r with (r := bpow ex) in Hlo; [|pose proof (bpow_pos ex); lra].
          rewrite <- bpow_add in Hlo.
          assert (Hlt : bpow (Zdigits2 mx - 1 + ex) < bpow k) by lra.
          apply bpow_lt_inv in Hlt. lia. }
        lia. }
  rewrite <- V2 in Hdelta, Herr.
  destruct (shr_m mrs'') as [|p|p] eqn:Hm3; try lia.
  - unfold rounds_to. cbn [SFfinite SFsignbit SFmag]. repeat split.
    rewrite Rmult_0_l in Hdelta. exact Hdelta.
  - assert (He'' : (e'' <= k)%Z).
    { apply Rabs_le_inv in Herr. destruct Herr as [_ Hup].
      assert (H1 : 1 <= IZR (Zpos p)) by (apply IZR_le; lia).
      pose proof (bpow_pos e'') as Hb''.
      assert (Hle : bpow e' <= bpow e'') by (apply bpow_le; lia).
      assert (Hlt : bpow e'' < bpow (k + 1)).
      { rewrite bpow_succ.
        assert (bpow e'' <= IZR (Zpos p) * bpow e'') by nra. lra. }
      apply bpow_lt_inv in Hlt. lia. }
    replace (e'' <=? emax - prec)%Z with true
      by (symmetry; apply Z.leb_le; change (emax - prec)%Z with 971%Z; lia).
    unfold rounds_to. cbn [SFfinite SFsignbit SFmag]. repeat split. exact Hdelta.
Qed.

Lemma SF2R_finite s m e :
  SF2R (S754_finite s m e) = IZR (cond_Zopp s (Zpos m)) * bpow e.
Proof.
  unfold SF2R. destruct s; cbn [SFsignbit SFmag cond_Zopp].
  - rewrite opp_IZR. ring.
  - reflexivity.
Qed.

Lemma SF2R_zero s : SF2R (S754_zero s) = 0.
Proof. unfold SF2R. destruct s; cbn [SFsignbit SFmag]; lra. Qed.

(** A rounded magnitude with the sign put back. *)
Lemma rounds_to_signed sx r a delta z :
  rounds_to sx r a delta -> z = (if sx then - a else a) ->
  SFfinite r = true /\ Rabs (SF2R r - z) <= delta.
Proof.
  intros (Hf & Hs & Hd) ->. split; [exact Hf|].
  unfold SF2R. rewrite Hs. destruct sx; [|exact Hd].
  replace (- SFmag r - - a) with (- (SFmag r - a)) by ring.
  rewrite Rabs_Ropp. exact Hd.
Qed.

Lemma Pos_iter_xO m d : Zpos (Pos.iter xO m d) = (Zpos m * 2 ^ Zpos d)%Z.
Proof.
  induction d as [|d IH] using Pos.peano_ind.
  - simpl. lia.
  - rewrite Pos.iter_succ, Pos2Z.inj_succ, Z.pow_succ_r by lia.
    rewrite (Pos2Z.inj_xO (Pos.iter xO m d)), IH. ring.
Qed.

Lemma shl_align_spec mx ex ex' :
  snd (shl_align mx ex ex') = Z.min ex ex' /\
  Zpos (fst (shl_align mx ex ex')) = (Zpos mx * 2 ^ (ex - Z.min ex ex'))%Z.
Proof.
  unfold shl_align. destruct (ex' - ex)%Z as [|d|d] eqn:Hd; cbn [fst snd].
  - replace (Z.min ex ex') with ex by lia. rewrite Z.sub_diag. split; lia.
  - replace (Z.min ex ex') with ex by lia. rewrite Z.sub_diag. split; lia.
  - replace (Z.min ex ex') with ex' by lia. split; [reflexivity|].
    rewrite Pos_iter_xO. f_equal. f_equal. lia.
Qed.

Lemma shl_align_value mx ex ex' :
  IZR (Zpos (fst (shl_align mx ex ex'))) * bpow (Z.min ex ex') = IZR (Zpos mx) * bpow ex.
Proof.
  destruct (shl_align_spec mx ex ex') as [_ ->].
  rewrite mult_IZR, <- bpow_IZR by lia. rewrite Rmult_assoc, <- bpow_add.
  f_equal. f_equal. lia.
Qed.

Lemma binary_round_correct sx mx ex k :
  IZR (Zpos mx) * bpow ex < bpow k -> (-1021 <= k <= 970)%Z ->
  rounds_to sx (binary_round prec emax sx mx ex) (IZR (Zpos mx) * bpow ex) (bpow (k - 54)).
Proof.
  intros Hk Hr. unfold binary_round.
  set (e1 := fexp prec emax (Zpos (digits2_pos mx) + ex)).
  pose proof (shl_align_value mx ex e1) as Hv.
  destruct (shl_align_spec mx ex e1) as [Hs _].
  destruct (shl_align mx ex e1) as [mz ez]. cbn [fst snd] in Hv, Hs. subst ez.
  rewrite <- Hv in *.
  apply binary_round_aux_correct; try assumption; try lia.
  - cbn [located]. pose proof (bpow_pos (Z.min ex e1)). field. lra.
  - left. split; [reflexivity | lia].
Qed.

Lemma binary_normalize_correct m e szero k :
  Rabs (IZR m * bpow e) < bpow k -> (-1021 <= k <= 970)%Z ->
  let r := binary_normalize prec emax m e szero in
  SFfinite r = true /\ Rabs (SF2R r - IZR m * bpow e) <= bpow (k - 54).
Proof.
  intros Hk Hr r. subst r. pose proof (bpow_pos e) as Hb.
  destruct m as [|p|p]; cbn [binary_normalize].
  - split; [reflexivity|]. rewrite SF2R_zero, Rmult_0_l, Rminus_diag, Rabs_R0.
    pose proof (bpow_pos (k - 54)). lra.
  - assert (H0 : 0 < IZR (Zpos p)) by (apply IZR_lt; lia).
    rewrite Rabs_pos_eq in Hk by nra.
    eapply rounds_to_signed; [apply binary_round_correct; eassumption|reflexivity].
  - assert (H0 : 0 < IZR (Zpos p)) by (apply IZR_lt; lia).
    assert (Hn : IZR (Zneg p) = - IZR (Zpos p)) by (rewrite <- opp_IZR; reflexivity).
    rewrite Hn in *.
    replace (- IZR (Zpos p) * bpow e) with (- (IZR (Zpos p) * bpow e)) in * by ring.
    rewrite Rabs_Ropp, Rabs_pos_eq in Hk by nra.
    eapply rounds_to_signed; [apply binary_round_correct; eassumption|reflexivity].
Qed.

(** ** Addition and subtraction *)

Lemma cond_Zopp_align s mx ex ey :
  IZR (cond_Zopp s (Zpos (fst (shl_align mx ex (Z.min ex ey))))) * bpow (Z.min ex ey)
  = SF2R (S754_finite s mx ex).
Proof.
  rewrite SF2R_finite. pose proof (shl_align_value mx ex (Z.min ex ey)) as H.
  rewrite Z.min_assoc, Z.min_id in H.
  destruct s; cbn [cond_Zopp]; rewrite ?opp_IZR; lra.
Qed.

(** Below [2 ^ k] the sum of two finite numbers is rounded to a finite
    number at most [2 ^ (k - 54)] away. *)
Lemma SFadd_correct x y k :
  SFfinite x = true -> SFfinite y = true ->
  Rabs (SF2R x + SF2R y) < bpow k -> (-1021 <= k <= 970)%Z ->
  SFfinite (SF64add x y) = true /\
  Rabs (SF2R (SF64add x y) - (SF2R x + SF2R y)) <= bpow (k - 54).
Proof.
  intros Hx Hy Hk Hr. pose proof (bpow_pos (k - 54)) as Hd.
  assert (Hexact : forall r, SFfinite r = true -> SF2R r = SF2R x + SF2R y ->
            SFfinite r = true /\ Rabs (SF2R r - (SF2R x + SF2R y)) <= bpow (k - 54)).
  { intros r Hf ->. split; [exact Hf|]. rewrite Rminus_diag, Rabs_R0. lra. }
  destruct x as [sx|sx| |sx mx ex], y as [sy|sy| |sy my ey]; try discriminate;
    unfold SF64add; cbn [SFadd].
  - apply Hexact; [destruct sx, sy; reflexivity|].
    rewrite !SF2R_zero. destruct sx, sy; rewrite SF2R_zero; lra.
  - apply Hexact; [reflexivity|]. rewrite SF2R_zero. lra.
  - apply Hexact; [reflexivity|]. rewrite SF2R_zero. lra.
  - rewrite <- (cond_Zopp_align sx mx ex ey), <- (cond_Zopp_align sy my ey ex) in *.
    rewrite (Z.min_comm ey ex) in *. rewrite <- Rmult_plus_distr_r, <- plus_IZR in *.
    apply binary_normalize_correct; assumption.
Qed.

Lemma SFsub_correct x y k :
  SFfinite x = true -> SFfinite y = true ->
  Rabs (SF2R x - SF2R y) < bpow k -> (-1021 <= k <= 970)%Z ->
  SFfinite (SF64sub x y) = true /\
  Rabs (SF2R (SF64sub x y) - (SF2R x - SF2R y)) <= bpow (k - 54).
Proof.
  intros Hx Hy Hk Hr. pose proof (bpow_pos (k - 54)) as Hd.
  assert (Hexact : forall r, SFfinite r = true -> SF2R r = SF2R x - SF2R y ->
            SFfinite r = true /\ Rabs (SF2R r - (SF2R x - SF2R y)) <= bpow (k - 54)).
  { intros r Hf ->. split; [exact Hf|]. rewrite Rminus_diag, Rabs_R0. lra. }
  destruct x as [sx|sx| |sx mx ex], y as [sy|sy| |sy my ey]; try discriminate;
    unfold SF64sub; cbn [SFsub].
  - apply Hexact; [destruct sx, sy; reflexivity|].
    rewrite !SF2R_zero. destruct sx, sy; rewrite SF2R_zero; lra.
  - apply Hexact; [reflexivity|]. rewrite SF2R_zero, !SF2R_finite.
    destruct sy; cbn [negb cond_Zopp]; rewrite ?opp_IZR; lra.
  - apply Hexact; [reflexivity|]. rewrite SF2R_zero. lra.
  - rewrite <- (cond_Zopp_align sx mx ex ey), <- (cond_Zopp_align sy my ey ex) in *.
    rewrite (Z.min_comm ey ex) in *. rewrite <- Rmult_minus_distr_r, <- minus_IZR in *.
    apply binary_normalize_correct; assumption.
Qed.

(** ** Multiplication *)

Lemma SF2R_mag_sign x :
  SF2R x = (if SFsignbit x then - SFmag x else SFmag x) /\ 0 <= SFmag x.
Proof.
  split; [reflexivity|]. destruct x; cbn [SFmag]; try lra.
  pose proof (bpow_pos e). assert (0 < IZR (Zpos m)) by (apply IZR_lt; lia). nra.
Qed.

Lemma SFmul_correct x y k :
  SFfinite x = true -> SFfinite y = true ->
  Rabs (SF2R x * SF2R y) < bpow k -> (-1021 <= k <= 970)%Z ->
  SFfinite (SF64mul x y) = true /\
  Rabs (SF2R (SF64mul x y) - SF2R x * SF2R y) <= bpow (k - 54).
Proof.
  intros Hx Hy Hk Hr. pose proof (bpow_pos (k - 54)) as Hd.
  destruct x as [sx|sx| |sx mx ex], y as [sy|sy| |sy my ey]; try discriminate;
    unfold SF64mul; cbn [SFmul];
    try (split; [reflexivity|]; rewrite !SF2R_zero, ?Rmult_0_l, ?Rmult_0_r,
           Rminus_diag, Rabs_R0; lra).
  pose proof (bpow_pos ex) as Hbx. pose proof (bpow_pos ey) as Hby.
  assert (Hmx : 0 < IZR (Zpos mx)) by (apply IZR_lt; lia).
  assert (Hmy : 0 < IZR (Zpos my)) by (apply IZR_lt; lia).
  set (a := IZR (Zpos (mx * my)) * bpow (ex + ey)).
  assert (Ha : a = (IZR (Zpos mx) * bpow ex) * (IZR (Zpos my) * bpow ey)).
  { unfold a. rewrite Pos2Z.inj_mul, mult_IZR, bpow_add. ring. }
  assert (Hprod : SF2R (S754_finite sx mx ex) * SF2R (S754_finite sy my ey)
                  = if xorb sx sy then - a else a).
  { rewrite Ha. unfold SF2R. destruct sx, sy; cbn [SFsignbit SFmag xorb]; ring. }
  assert (Hapos : 0 < a) by (rewrite Ha; repeat apply Rmult_lt_0_compat; assumption).
  rewrite Hprod in *.
  assert (Hak : a < bpow k).
  { destruct (xorb sx sy); [rewrite Rabs_Ropp in Hk|]; rewrite Rabs_pos_eq in Hk; lra. }
  eapply rounds_to_signed; [|reflexivity].
  apply binary_round_aux_correct; try assumption; try lia.
  - cbn [located]. unfold a. field. pose proof (bpow_pos (ex + ey)). lra.
  - left. split; [reflexivity|lia].
Qed.

(** ** Division *)

(** The location of a quotient from its remainder. *)
Lemma new_location_located m2 q r :
  (0 <= r < m2)%Z ->
  located q (new_location m2 r) (IZR q + IZR r / IZR m2).
Proof.
  intros [Hr0 Hr]. assert (Hm : 0 < IZR m2) by (apply IZR_lt; lia).
  set (t := IZR r / IZR m2).
  assert (Ht : IZR r = t * IZR m2) by (unfold t; field; lra).
  clearbody t.
  assert (Ht1 : 0 <= t < 1).
  { apply IZR_le in Hr0. apply IZR_lt in Hr. rewrite Ht in *. split; nra. }
  assert (Hcmp : forall c : Z, (c < m2)%Z -> IZR c < IZR m2) by (intros; apply IZR_lt; assumption).
  unfold new_location.
  destruct (Z.even m2) eqn:Hev; unfold new_location_even, new_location_odd;
    (destruct (Z.eqb_spec r 0) as [Hz|Hne];
     [ subst r; assert (t = 0) by nra; cbn [located]; lra | ]).
  - assert (Ht0 : 0 < t).
    { assert (H1 : 1 <= IZR r) by (apply IZR_le; lia). rewrite Ht in H1. nra. }
    destruct (Z.compare_spec (2 * r) m2) as [He|Hl|Hg]; cbn [located].
    + rewrite <- He, mult_IZR in Ht, Hm. nra.
    + apply IZR_lt in Hl. rewrite mult_IZR, Ht in Hl. split; nra.
    + apply IZR_lt in Hg. rewrite mult_IZR, Ht in Hg. split; nra.
  - assert (Ht0 : 0 < t).
    { assert (H1 : 1 <= IZR r) by (apply IZR_le; lia). rewrite Ht in H1. nra. }
    assert (Hodd : (2 * r <> m2)%Z).
    { intros <-. rewrite Z.even_mul in Hev. discriminate. }
    destruct (Z.compare_spec (2 * r + 1) m2) as [He|Hl|Hg]; cbn [located].
    + assert (Hl : (2 * r < m2)%Z) by lia.
      apply IZR_lt in Hl. rewrite mult_IZR, Ht in Hl. split; nra.
    + assert (Hl' : (2 * r < m2)%Z) by lia.
      apply IZR_lt in Hl'. rewrite mult_IZR, Ht in Hl'. split; nra.
    + assert (Hg' : (m2 < 2 * r)%Z) by lia.
      apply IZR_lt in Hg'. rewrite mult_IZR, Ht in Hg'. split; nra.
Qed.

Lemma SFdiv_core_binary_located mx ex my ey :
  let a := (IZR (Zpos mx) * bpow ex) / (IZR (Zpos my) * bpow ey) in
  let '(mz, ez, lz) := SFdiv_core_binary prec emax (Zpos mx) ex (Zpos my) ey in
  (0 <= mz)%Z /\ located mz lz (a / bpow ez) /\
  (ez <= fexp prec emax (Zpos (digits2_pos mx) + ex - (Zpos (digits2_pos my) + ey)))%Z.
Proof.
  intros a. unfold SFdiv_core_binary. cbn [Zdigits2].
  set (e' := Z.min _ _).
  set (s := (ex - ey - e')%Z).
  assert (Hs : (0 <= s)%Z) by (unfold s, e'; lia).
  set (m' := match s with Zpos _ => Z.shiftl (Zpos mx) s | Z0 => Zpos mx | Zneg _ => 0%Z end).
  assert (Hm' : m' = (Zpos mx * 2 ^ s)%Z).
  { unfold m'. destruct s as [|p|p]; [lia| |lia]. apply Z.shiftl_mul_pow2. lia. }
  assert (Hm'0 : (0 < m')%Z).
  { rewrite Hm'. apply Z.mul_pos_pos; [lia|]. apply Z.pow_pos_nonneg; lia. }
  pose proof (Z_div_mod m' (Zpos my) ltac:(lia)) as Hdiv.
  destruct (Z.div_eucl m' (Zpos my)) as [q r]. destruct Hdiv as [Hqr Hr].
  split; [nia|]. split; [|unfold e'; lia].
  assert (Hy : 0 < IZR (Zpos my)) by (apply IZR_lt; lia).
  pose proof (bpow_pos ex). pose proof (bpow_pos ey). pose proof (bpow_pos e').
  replace (a / bpow e') with (IZR q + IZR r / IZR (Zpos my)).
  { apply new_location_located. lia. }
  transitivity (IZR m' / IZR (Zpos my)).
  { rewrite Hqr, plus_IZR, mult_IZR. field. lra. }
  rewrite Hm', mult_IZR, <- bpow_IZR by lia. unfold a, s.
  rewrite !bpow_sub. field. lra.
Qed.

Lemma SFdiv_correct x sy my ey k :
  SFfinite x = true ->
  let y := S754_finite sy my ey in
  Rabs (SF2R x / SF2R y) < bpow k -> (-1021 <= k <= 970)%Z ->
  SFfinite (SF64div x y) = true /\
  Rabs (SF2R (SF64div x y) - SF2R x / SF2R y) <= bpow (k - 54).
Proof.
  intros Hx y Hk Hr. pose proof (bpow_pos (k - 54)) as Hd.
  assert (Hmy : 0 < IZR (Zpos my)) by (apply IZR_lt; lia).
  pose proof (bpow_pos ey) as Hby.
  assert (Hy0 : SFmag y <> 0) by (cbn [y SFmag]; nra).
  destruct x as [sx|sx| |sx mx ex]; try discriminate; unfold SF64div, y; cbn [SFdiv].
  - split; [reflexivity|]. rewrite !SF2R_zero.
    replace (0 - 0 / SF2R (S754_finite sy my ey)) with 0.
    + rewrite Rabs_R0. lra.
    + unfold Rdiv. ring.
  - pose proof (bpow_pos ex) as Hbx.
    assert (Hmx : 0 < IZR (Zpos mx)) by (apply IZR_lt; lia).
    pose proof (SFdiv_core_binary_located mx ex my ey) as Hcore.
    cbv zeta in Hcore.
    set (a := IZR (Zpos mx) * bpow ex / (IZR (Zpos my) * bpow ey)) in *.
    assert (Hapos : 0 < a).
    { unfold a. apply Rdiv_lt_0_compat; apply Rmult_lt_0_compat; assumption. }
    assert (Hquot : SF2R (S754_finite sx mx ex) / SF2R (S754_finite sy my ey)
                    = if xorb sx sy then - a else a).
    { unfold a, SF2R. destruct sx, sy; cbn [SFsignbit SFmag xorb]; field; nra. }
    fold y in Hk. unfold y in Hk. rewrite Hquot in *.
    assert (Hak : a < bpow k).
    { destruct (xorb sx sy); [rewrite Rabs_Ropp in Hk|]; rewrite Rabs_pos_eq in Hk; lra. }
    destruct (SFdiv_core_binary prec emax (Zpos mx) ex (Zpos my) ey) as [[mz ez] lz].
    destruct Hcore as (Hmz & Hloc & Hez).
    eapply rounds_to_signed; [|reflexivity].
    apply binary_round_aux_correct; try assumption.
    right.
    (* the quotient is at least [2 ^ (d1 - 1 + ex - d2 - ey)] *)
    destruct (digits2_Zpos_bounds mx) as [Hlo1 _].
    destruct (digits2_Zpos_bounds my) as [_ Hhi2].
    set (d1 := Zpos (digits2_pos mx)) in *. set (d2 := Zpos (digits2_pos my)) in *.
    apply IZR_le in Hlo1. apply IZR_lt in Hhi2.
    rewrite <- bpow_IZR in Hlo1, Hhi2 by (unfold d1, d2; lia).
    assert (Hq : bpow (d1 - 1 + ex - (d2 + ey)) < bpow k).
    { eapply Rle_lt_trans; [|exact Hak].
      rewrite bpow_sub, !bpow_add. unfold a.
      pose proof (bpow_pos (d1 - 1)). pose proof (bpow_pos d2).
      apply Rle_trans with (bpow (d1 - 1) * bpow ex / (IZR (Zpos my) * bpow ey)).
      - unfold Rdiv. apply Rmult_le_compat_l; [nra|].
        apply Rinv_le_contravar; nra.
      - unfold Rdiv. apply Rmult_le_compat_r; [|nra].
        apply Rlt_le, Rinv_0_lt_compat. nra. }
    apply bpow_lt_inv in Hq. rewrite fexp64 in Hez. lia.
Qed.

(** ** Comparison of valid numbers *)

Lemma valid_finite_bounds s m e :
  valid_binary (S754_finite s m e) = true ->
  (-1074 <= e)%Z /\ (Zpos m < 2 ^ 53)%Z /\ ((-1074 < e)%Z -> (2 ^ 52 <= Zpos m)%Z).
Proof.
  cbn [SpecFloat.valid_binary]. unfold bounded, canonical_mantissa.
  rewrite andb_true_iff, Z.eqb_eq, fexp64. intros [Hc _].
  destruct (digits2_Zpos_bounds m) as [Hlo Hhi].
  set (d := Zpos (digits2_pos m)) in *.
  split; [lia|]. split.
  - eapply Z.lt_le_trans; [exact Hhi|]. apply Z.pow_le_mono_r; lia.
  - intros He. assert (d = 53%Z) by lia.
    replace (d - 1)%Z with 52%Z in Hlo by lia. exact Hlo.
Qed.

(** On valid numbers [SFcompare] orders by magnitude: mantissas of one
    exponent compare as integers, and a larger exponent means a normal
    number above every number of a smaller exponent. *)
Lemma SFcompare_magnitudes m1 e1 m2 e2 :
  valid_binary (S754_finite false m1 e1) = true ->
  valid_binary (S754_finite false m2 e2) = true ->
  let v1 := IZR (Zpos m1) * bpow e1 in
  let v2 := IZR (Zpos m2) * bpow e2 in
  match SFcompare (S754_finite false m1 e1) (S754_finite false m2 e2) with
  | Some Lt => v1 < v2
  | Some Eq => v1 = v2
  | Some Gt => v2 < v1
  | None => False
  end.
Proof.
  intros V1 V2 v1 v2.
  destruct (valid_finite_bounds _ _ _ V1) as (E1 & H1 & N1).
  destruct (valid_finite_bounds _ _ _ V2) as (E2 & H2 & N2).
  assert (Hsep : forall ma ea mb eb, (ea < eb)%Z -> (-1074 <= ea)%Z ->
            (Zpos ma < 2 ^ 53)%Z -> (2 ^ 52 <= Zpos mb)%Z ->
            IZR (Zpos ma) * bpow ea < IZR (Zpos mb) * bpow eb).
  { intros ma ea mb eb Hlt Hea Ha Hb.
    apply IZR_lt in Ha. apply IZR_le in Hb. rewrite <- bpow_IZR in Ha, Hb by lia.
    pose proof (bpow_pos ea). pose proof (bpow_pos eb).
    apply Rlt_le_trans with (bpow 53 * bpow ea); [nra|].
    apply Rle_trans with (bpow 52 * bpow eb); [|nra].
    rewrite <- !bpow_add. apply bpow_le. lia. }
  cbn [SFcompare].
  destruct (Z.compare_spec e1 e2) as [He|Hl|Hg].
  - subst e2. change (Pos.compare_cont Eq m1 m2) with (Pos.compare m1 m2).
    pose proof (bpow_pos e1).
    destruct (Pos.compare_spec m1 m2) as [Hm|Hm|Hm]; unfold v1, v2.
    + subst m2. reflexivity.
    + apply Pos2Z.pos_lt_pos, IZR_lt in Hm. nra.
    + apply Pos2Z.pos_lt_pos, IZR_lt in Hm. nra.
  - apply Hsep; try assumption. apply N2. lia.
  - apply Hsep; try assumption. apply N1. lia.
Qed.

(** ** Primitive doubles through their specification *)

Definition F2R (f : float) : R := SF2R (Prim2SF f).

Definition finite (f : float) : Prop := SFfinite (Prim2SF f) = true.

(** [t] is finite and within [delta] of the real [r]. *)
Definition approx (t : float) (r delta : R) : Prop :=
  finite t /\ r - delta <= F2R t <= r + delta.

Lemma approx_self t : finite t -> approx t (F2R t) 0.
Proof. intros H. split; [exact H|lra]. Qed.

Lemma Rabs_lt_between a b : - b < a < b -> Rabs a < b.
Proof. intros [H1 H2]. apply Rabs_def1; assumption. Qed.

Section Operations.

Variables (t c : float) (r delta : R) (k : Z).
Hypothesis Ht : approx t r delta.
Hypothesis Hc : finite c.
Hypothesis Hk : (-1021 <= k <= 970)%Z.

Lemma approx_add :
  - bpow k < r + F2R c - delta -> r + F2R c + delta < bpow k ->
  approx (t + c) (r + F2R c) (delta + bpow (k - 54)).
Proof.
  intros Hlo Hhi. destruct Ht as [Hf Hb]. unfold approx, finite, F2R in *.
  rewrite add_spec.
  destruct (SFadd_correct (Prim2SF t) (Prim2SF c) k Hf Hc) as [Hf' He]; try assumption.
  { apply Rabs_lt_between. lra. }
  split; [exact Hf'|]. apply Rabs_le_inv in He. lra.
Qed.

Lemma approx_sub :
  - bpow k < r - F2R c - delta -> r - F2R c + delta < bpow k ->
  approx (t - c) (r - F2R c) (delta + bpow (k - 54)).
Proof.
  intros Hlo Hhi. destruct Ht as [Hf Hb]. unfold approx, finite, F2R in *.
  rewrite sub_spec.
  destruct (SFsub_correct (Prim2SF t) (Prim2SF c) k Hf Hc) as [Hf' He]; try assumption.
  { apply Rabs_lt_between. lra. }
  split; [exact Hf'|]. apply Rabs_le_inv in He. lra.
Qed.

Lemma approx_mul :
  0 < F2R c ->
  - bpow k < (r - delta) * F2R c -> (r + delta) * F2R c < bpow k ->
  approx (t * c) (r * F2R c) (delta * F2R c + bpow (k - 54)).
Proof.
  intros Hpos Hlo Hhi. destruct Ht as [Hf Hb]. unfold approx, finite, F2R in *.
  rewrite mul_spec.
  destruct (SFmul_correct (Prim2SF t) (Prim2SF c) k Hf Hc) as [Hf' He]; try assumption.
  { apply Rabs_lt_between. split; nra. }
  split; [exact Hf'|]. apply Rabs_le_inv in He. split; nra.
Qed.

Lemma approx_div :
  0 < F2R c ->
  - bpow k < (r - delta) / F2R c -> (r + delta) / F2R c < bpow k ->
  approx (t / c) (r / F2R c) (delta / F2R c + bpow (k - 54)).
Proof.
  intros Hpos Hlo Hhi. destruct Ht as [Hf Hb]. unfold approx, finite, F2R in *.
  rewrite div_spec.
  destruct (Prim2SF c) as [sc|sc| |sc mc ec] eqn:Ec.
  - rewrite SF2R_zero in Hpos. lra.
  - discriminate.
  - discriminate.
  - set (u := / SF2R (S754_finite sc mc ec)) in *.
    assert (Hu : 0 < u) by (apply Rinv_0_lt_compat; exact Hpos).
    unfold Rdiv in *. fold u in Hlo, Hhi |- *.
    destruct (SFdiv_correct (Prim2SF t) sc mc ec k Hf) as [Hf' He]; try assumption.
    { cbv zeta. apply Rabs_lt_between. unfold Rdiv. fold u. split; nra. }
    cbv zeta in He. unfold Rdiv in He. fold u in He.
    split; [exact Hf'|]. apply Rabs_le_inv in He. split; nra.
Qed.

End Operations.

Lemma approx_weaken t r delta r' delta' :
  approx t r delta -> r = r' -> delta <= delta' -> approx t r' delta'.
Proof. intros [Hf Hb] <- Hd. split; [exact Hf|lra]. Qed.

(** [abs x <=? b], for a positive finite bound [b], bounds [x]. *)
Lemma leb_abs_bound x b mb eb :
  Prim2SF b = S754_finite false mb eb ->
  (abs x <=? b)%float = true ->
  finite x /\ - F2R b <= F2R x <= F2R b.
Proof.
  intros Eb H. rewrite leb_spec, abs_spec in H.
  pose proof (Prim2SF_valid x) as Vx. pose proof (Prim2SF_valid b) as Vb.
  unfold finite, F2R. rewrite Eb in *.
  destruct (Prim2SF x) as [sx|sx| |sx mx ex]; cbn [SFabs] in H; try discriminate.
  - split; [reflexivity|]. rewrite SF2R_zero.
    destruct (SF2R_mag_sign (S754_finite false mb eb)) as [-> Hm].
    cbn [SFsignbit] in *. lra.
  - split; [reflexivity|].
    assert (Vx' : valid_binary (S754_finite false mx ex) = true) by exact Vx.
    pose proof (SFcompare_magnitudes mx ex mb eb Vx' Vb) as Hc. cbv zeta in Hc.
    unfold SFleb in H.
    assert (Hle : IZR (Zpos mx) * bpow ex <= IZR (Zpos mb) * bpow eb).
    { destruct (SFcompare (S754_finite false mx ex) (S754_finite false mb eb)) as [[]|];
        try discriminate; lra. }
    assert (H0 : 0 < IZR (Zpos mx) * bpow ex).
    { apply Rmult_lt_0_compat; [apply IZR_lt; lia|apply bpow_pos]. }
    unfold SF2R. cbn [SFsignbit SFmag]. destruct sx; lra.
Qed.

(** [abs x <? b] holds as soon as [x] is finite and of smaller magnitude. *)
Lemma ltb_abs_intro x b mb eb :
  Prim2SF b = S754_finite false mb eb ->
  finite x -> - F2R b < F2R x < F2R b ->
  (abs x <? b)%float = true.
Proof.
  intros Eb Hf Hx. rewrite ltb_spec, abs_spec.
  pose proof (Prim2SF_valid x) as Vx. pose proof (Prim2SF_valid b) as Vb.
  unfold finite, F2R in *. rewrite Eb in *.
  destruct (Prim2SF x) as [sx|sx| |sx mx ex]; try discriminate; cbn [SFabs].
  - reflexivity.
  - assert (Vx' : valid_binary (S754_finite false mx ex) = true) by exact Vx.
    pose proof (SFcompare_magnitudes mx ex mb eb Vx' Vb) as Hc. cbv zeta in Hc.
    unfold SFltb.
    assert (Hlt : IZR (Zpos mx) * bpow ex < IZR (Zpos mb) * bpow eb).
    { unfold SF2R in Hx. cbn [SFsignbit SFmag] in Hx. destruct sx; lra. }
    destruct (SFcompare (S754_finite false mx ex) (S754_finite false mb eb)) as [[]|];
      try reflexivity; try lra; contradiction.
Qed.

(** ** Literal powers of two and the constants of the program *)

Lemma bpow_nonneg_const e z : (0 <=? e)%Z = true -> (2 ^ e)%Z = z -> bpow e = IZR z.
Proof. intros He <-. apply bpow_IZR. apply Z.leb_le. exact He. Qed.

Lemma bpow_neg_const e z : (e <? 0)%Z = true -> (2 ^ (- e))%Z = z -> bpow e = / IZR z.
Proof.
  intros He <-. apply Z.ltb_lt in He.
  rewrite <- bpow_IZR by lia. replace e with (0 - - e)%Z at 1 by lia.
  rewrite bpow_sub, bpow_0. unfold Rdiv. ring.
Qed.

Ltac bpow_const :=
  repeat match goal with
  | |- context [bpow ?e] =>
      let e' := eval vm_compute in e in
      match e' with
      | Zneg _ =>
          let z := eval vm_compute in (2 ^ (- e'))%Z in
          rewrite (bpow_neg_const e z eq_refl eq_refl)
      | _ =>
          let z := eval vm_compute in (2 ^ e')%Z in
          rewrite (bpow_nonneg_const e z eq_refl eq_refl)
      end
  end.

Lemma F2R_const f s m e :
  Prim2SF f = S754_finite s m e -> F2R f = IZR (cond_Zopp s (Zpos m)) * bpow e.
Proof. intros H. unfold F2R. rewrite H. apply SF2R_finite. Qed.

Local Open Scope float_scope.

Lemma F2R_9 : F2R 9 = 9%R.
Proof. rewrite (F2R_const 9 false 5066549580791808 (-49) eq_refl). cbn [cond_Zopp]. bpow_const. lra. Qed.
Lemma F2R_5 : F2R 5 = 5%R.
Proof. rewrite (F2R_const 5 false 5629499534213120 (-50) eq_refl). cbn [cond_Zopp]. bpow_const. lra. Qed.
Lemma F2R_32 : F2R 32 = 32%R.
Proof. rewrite (F2R_const 32 false 4503599627370496 (-47) eq_refl). cbn [cond_Zopp]. bpow_const. lra. Qed.

Lemma fin_9 : finite 9. Proof. reflexivity. Qed.
Lemma fin_5 : finite 5. Proof. reflexivity. Qed.
Lemma fin_32 : finite 32. Proof. reflexivity. Qed.
Lemma fin_273 : finite 273.15. Proof. reflexivity. Qed.
Lemma fin_459 : finite 459.67. Proof. reflexivity. Qed.

Lemma F2R_273 : (273 < F2R 273.15 < 274)%R.
Proof.
  rewrite (F2R_const 273.15 false 4805305618032230 (-44) eq_refl).
  cbn [cond_Zopp]. bpow_const. lra.
Qed.

Lemma F2R_459 : (459 < F2R 459.67 < 460)%R.
Proof.
  rewrite (F2R_const 459.67 false 8086600159036703 (-44) eq_refl).
  cbn [cond_Zopp]. bpow_const. lra.
Qed.

Lemma F2R_eps : (999 / 1000000 < F2R 0.001)%R.
Proof.
  rewrite (F2R_const 0.001 false 4611686018427388 (-62) eq_refl).
  cbn [cond_Zopp]. bpow_const. lra.
Qed.

Lemma F2R_1e12 : F2R 1e12 = 1000000000000%R.
Proof.
  rewrite (F2R_const 1e12 false 8192000000000000 (-13) eq_refl).
  cbn [cond_Zopp]. bpow_const. lra.
Qed.

Ltac consts := rewrite ?F2R_9, ?F2R_5, ?F2R_32.

(** One operation of a conversion formula: apply the error bound [lem] at
    the exponent [k], then round the real side and the error to the stated
    ones. *)
Ltac approx_step lem H Hfin k :=
  eapply approx_weaken;
  [ eapply (lem _ _ _ _ k H Hfin); [lia | consts; bpow_const; lra ..]
  | consts; reflexivity
  | consts; bpow_const; lra ].

(** The last step of a round trip: the comparison with the original. *)
Lemma AreEqual_intro (a b : float) (delta : R) :
  finite a -> approx b (F2R a) delta -> (delta <= 9 / 10000)%R ->
  (abs (a - b) <? 0.001) = true.
Proof.
  intros Ha Hb Hd.
  assert (H0 : approx a (F2R a) 0) by (apply approx_self; exact Ha).
  assert (Hs := approx_sub a b (F2R a) 0 (-10) H0 (proj1 Hb) ltac:(lia)).
  destruct Hb as [_ Hb].
  revert Hs. bpow_const. intros Hs.
  destruct Hs as [Hf Hs]; [lra|lra|].
  pose proof F2R_eps.
  apply (ltb_abs_intro _ 0.001 4611686018427388 (-62) eq_refl Hf). lra.
Qed.

(** ** The six round trips on a raw value

    For [abs v <= 1e12] every intermediate result is below [2 ^ 44], so each
    operation adds at most [2 ^ -10] to the error, and the errors of the six
    operations of a round trip add up to less than [0.0005]. *)

Lemma round_trip_C_F (v : float) :
  (abs v <=? 1e12) = true ->
  (abs (v - ((v * 9 / 5 + 32 - 32) * 5 / 9)) <? 0.001) = true.
Proof.
  intros Hv.
  destruct (leb_abs_bound v 1e12 _ _ eq_refl Hv) as [Hf Hb]. rewrite F2R_1e12 in Hb.
  set (x := F2R v) in *.
  assert (H0 : approx v x 0) by (apply approx_self; exact Hf).
  assert (H1 : approx (v * 9) (x * 9) (1 / 1024)).
  { approx_step approx_mul H0 fin_9 44%Z. }
  assert (H2 : approx (v * 9 / 5) (x * 9 / 5) (32 / 100000)).
  { approx_step approx_div H1 fin_5 41%Z. }
  assert (H3 : approx (v * 9 / 5 + 32) (x * 9 / 5 + 32) (45 / 100000)).
  { approx_step approx_add H2 fin_32 41%Z. }
  assert (H4 : approx (v * 9 / 5 + 32 - 32) (x * 9 / 5 + 32 - 32) (58 / 100000)).
  { approx_step approx_sub H3 fin_32 41%Z. }
  assert (H5 : approx ((v * 9 / 5 + 32 - 32) * 5) ((x * 9 / 5 + 32 - 32) * 5) (39 / 10000)).
  { approx_step approx_mul H4 fin_5 44%Z. }
  assert (H6 : approx ((v * 9 / 5 + 32 - 32) * 5 / 9) ((x * 9 / 5 + 32 - 32) * 5 / 9) (5 / 10000)).
  { approx_step approx_div H5 fin_9 40%Z. }
  apply (AreEqual_intro v _ (5 / 10000) Hf); [|lra].
  eapply approx_weaken; [exact H6|unfold x; field|lra].
Qed.


Lemma round_trip_C_K (v : float) :
  (abs v <=? 1e12) = true ->
  (abs (v - (v + 273.15 - 273.15)) <? 0.001) = true.
Proof.
  intros Hv.
  destruct (leb_abs_bound v 1e12 _ _ eq_refl Hv) as [Hf Hb]. rewrite F2R_1e12 in Hb.
  set (x := F2R v) in *. pose proof F2R_273 as Hc.
  assert (H0 : approx v x 0) by (apply approx_self; exact Hf).
  assert (H1 : approx (v + 273.15) (x + F2R 273.15) (7 / 100000)).
  { approx_step approx_add H0 fin_273 40%Z. }
  assert (H2 : approx (v + 273.15 - 273.15) (x + F2R 273.15 - F2R 273.15) (14 / 100000)).
  { approx_step approx_sub H1 fin_273 40%Z. }
  apply (AreEqual_intro v _ (14 / 100000) Hf); [|lra].
  eapply approx_weaken; [exact H2|unfold x; ring|lra].
Qed.

Lemma round_trip_K_C (v : float) :
  (abs v <=? 1e12) = true ->
  (abs (v - (v - 273.15 + 273.15)) <? 0.001) = true.
Proof.
  intros Hv.
  destruct (leb_abs_bound v 1e12 _ _ eq_refl Hv) as [Hf Hb]. rewrite F2R_1e12 in Hb.
  set (x := F2R v) in *. pose proof F2R_273 as Hc.
  assert (H0 : approx v x 0) by (apply approx_self; exact Hf).
  assert (H1 : approx (v - 273.15) (x - F2R 273.15) (7 / 100000)).
  { approx_step approx_sub H0 fin_273 40%Z. }
  assert (H2 : approx (v - 273.15 + 273.15) (x - F2R 273.15 + F2R 273.15) (14 / 100000)).
  { approx_step approx_add H1 fin_273 40%Z. }
  apply (AreEqual_intro v _ (14 / 100000) Hf); [|lra].
  eapply approx_weaken; [exact H2|unfold x; ring|lra].
Qed.

Lemma round_trip_F_C (v : float) :
  (abs v <=? 1e12) = true ->
  (abs (v - ((v - 32) * 5 / 9 * 9 / 5 + 32)) <? 0.001) = true.
Proof.
  intros Hv.
  destruct (leb_abs_bound v 1e12 _ _ eq_refl Hv) as [Hf Hb]. rewrite F2R_1e12 in Hb.
  set (x := F2R v) in *.
  assert (H0 : approx v x 0) by (apply approx_self; exact Hf).
  assert (H1 : approx (v - 32) (x - 32) (62 / 1000000)).
  { approx_step approx_sub H0 fin_32 40%Z. }
  assert (H2 : approx ((v - 32) * 5) ((x - 32) * 5) (80 / 100000)).
  { approx_step approx_mul H1 fin_5 43%Z. }
  assert (H3 : approx ((v - 32) * 5 / 9) ((x - 32) * 5 / 9) (15 / 100000)).
  { approx_step approx_div H2 fin_9 40%Z. }
  assert (H4 : approx ((v - 32) * 5 / 9 * 9) ((x - 32) * 5 / 9 * 9) (184 / 100000)).
  { approx_step approx_mul H3 fin_9 43%Z. }
  assert (H5 : approx ((v - 32) * 5 / 9 * 9 / 5) ((x - 32) * 5 / 9 * 9 / 5) (43 / 100000)).
  { approx_step approx_div H4 fin_5 40%Z. }
  assert (H6 : approx ((v - 32) * 5 / 9 * 9 / 5 + 32) ((x - 32) * 5 / 9 * 9 / 5 + 32) (50 / 100000)).
  { approx_step approx_add H5 fin_32 40%Z. }
  apply (AreEqual_intro v _ (50 / 100000) Hf); [|lra].
  eapply approx_weaken; [exact H6|unfold x; field|lra].
Qed.

Lemma round_trip_F_K (v : float) :
  (abs v <=? 1e12) = true ->
  (abs (v - ((v + 459.67) * 5 / 9 * 9 / 5 - 459.67)) <? 0.001) = true.
Proof.
  intros Hv.
  destruct (leb_abs_bound v 1e12 _ _ eq_refl Hv) as [Hf Hb]. rewrite F2R_1e12 in Hb.
  set (x := F2R v) in *. pose proof F2R_459 as Hc.
  assert (H0 : approx v x 0) by (apply approx_self; exact Hf).
  assert (H1 : approx (v + 459.67) (x + F2R 459.67) (62 / 1000000)).
  { approx_step approx_add H0 fin_459 40%Z. }
  assert (H2 : approx ((v + 459.67) * 5) ((x + F2R 459.67) * 5) (80 / 100000)).
  { approx_step approx_mul H1 fin_5 43%Z. }
  assert (H3 : approx ((v + 459.67) * 5 / 9) ((x + F2R 459.67) * 5 / 9) (15 / 100000)).
  { approx_step approx_div H2 fin_9 40%Z. }
  assert (H4 : approx ((v + 459.67) * 5 / 9 * 9) ((x + F2R 459.67) * 5 / 9 * 9) (184 / 100000)).
  { approx_step approx_mul H3 fin_9 43%Z. }
  assert (H5 : approx ((v + 459.67) * 5 / 9 * 9 / 5) ((x + F2R 459.67) * 5 / 9 * 9 / 5) (43 / 100000)).
  { approx_step approx_div H4 fin_5 40%Z. }
  assert (H6 : approx ((v + 459.67) * 5 / 9 * 9 / 5 - 459.67) ((x + F2R 459.67) * 5 / 9 * 9 / 5 - F2R 459.67) (50 / 100000)).
  { approx_step approx_sub H5 fin_459 40%Z. }
  apply (AreEqual_intro v _ (50 / 100000) Hf); [|lra].
  eapply approx_weaken; [exact H6|unfold x; field|lra].
Qed.

Lemma round_trip_K_F (v : float) :
  (abs v <=? 1e12) = true ->
  (abs (v - ((v * 9 / 5 - 459.67 + 459.67) * 5 / 9)) <? 0.001) = true.
Proof.
  intros Hv.
  destruct (leb_abs_bound v 1e12 _ _ eq_refl Hv) as [Hf Hb]. rewrite F2R_1e12 in Hb.
  set (x := F2R v) in *. pose proof F2R_459 as Hc.
  assert (H0 : approx v x 0) by (apply approx_self; exact Hf).
  assert (H1 : approx (v * 9) (x * 9) (1 / 1024)).
  { approx_step approx_mul H0 fin_9 44%Z. }
  assert (H2 : approx (v * 9 / 5) (x * 9 / 5) (32 / 100000)).
  { approx_step approx_div H1 fin_5 41%Z. }
  assert (H3 : approx (v * 9 / 5 - 459.67) (x * 9 / 5 - F2R 459.67) (45 / 100000)).
  { approx_step approx_sub H2 fin_459 41%Z. }
  assert (H4 : approx (v * 9 / 5 - 459.67 + 459.67) (x * 9 / 5 - F2R 459.67 + F2R 459.67) (58 / 100000)).
  { approx_step approx_add H3 fin_459 41%Z. }
  assert (H5 : approx ((v * 9 / 5 - 459.67 + 459.67) * 5) ((x * 9 / 5 - F2R 459.67 + F2R 459.67) * 5) (39 / 10000)).
  { approx_step approx_mul H4 fin_5 44%Z. }
  assert (H6 : approx ((v * 9 / 5 - 459.67 + 459.67) * 5 / 9) ((x * 9 / 5 - F2R 459.67 + F2R 459.67) * 5 / 9) (5 / 10000)).
  { approx_step approx_div H5 fin_9 40%Z. }
  apply (AreEqual_intro v _ (5 / 10000) Hf); [|lra].
  eapply approx_weaken; [exact H6|unfold x; field|lra].
Qed.

(** ** Finiteness, and the tolerance test on one value *)

Lemma is_finite_spec x : is_finite x = SFfinite (Prim2SF x).
Proof.
  unfold is_finite, is_nan, is_infinity.
  rewrite !eqb_spec, abs_spec.
  change (Prim2SF infinity) with (S754_infinity false).
  destruct (Prim2SF x) as [s|s| |s m e]; unfold SFeqb; cbn [SFabs SFcompare SFfinite].
  - reflexivity.
  - destruct s; reflexivity.
  - reflexivity.
  - rewrite Z.compare_refl, Pos.compare_cont_refl. destruct s; reflexivity.
Qed.

(** Rounding does not look at the sign, so [abs (x - y)] and [abs (y - x)]
    are one number. *)
Lemma SFabs_binary_round s1 s2 m e :
  SFabs (binary_round prec emax s1 m e) = SFabs (binary_round prec emax s2 m e).
Proof.
  unfold binary_round. destruct (shl_align m e _) as [mz ez].
  unfold binary_round_aux.
  destruct (shr_fexp prec emax (Zpos mz) ez loc_Exact) as [mrs' e'].
  destruct (shr_fexp prec emax _ e' loc_Exact) as [mrs'' e''].
  destruct (shr_m mrs''); [reflexivity| |reflexivity].
  destruct (e'' <=? emax - prec)%Z; reflexivity.
Qed.

Lemma SFabs_binary_normalize_opp m e :
  SFabs (binary_normalize prec emax (- m) e false)
  = SFabs (binary_normalize prec emax m e false).
Proof.
  destruct m; cbn [Z.opp binary_normalize]; [reflexivity| |]; apply SFabs_binary_round.
Qed.

Lemma SFabs_sub_sym x y : SFabs (SF64sub x y) = SFabs (SF64sub y x).
Proof.
  unfold SF64sub.
  destruct x as [sx|sx| |sx mx ex], y as [sy|sy| |sy my ey]; cbn [SFsub SFabs];
    try reflexivity; try (destruct sx, sy; reflexivity).
  rewrite (Z.min_comm ey ex), <- SFabs_binary_normalize_opp.
  f_equal. f_equal. lia.
Qed.

Lemma AreEqual_sym (a b : float) :
  (abs (a - b) <? 0.001) = (abs (b - a) <? 0.001).
Proof.
  rewrite !ltb_spec, !abs_spec, !sub_spec, SFabs_sub_sym. reflexivity.
Qed.

(** [a - a] is [+0] for a finite [a] and NaN otherwise. *)
Lemma AreEqual_refl_iff_finite (a : float) :
  (abs (a - a) <? 0.001) = is_finite a.
Proof.
  rewrite is_finite_spec.
  destruct (SFfinite (Prim2SF a)) eqn:Hf.
  - apply (AreEqual_intro a a 0 Hf); [|lra]. apply approx_self. exact Hf.
  - rewrite ltb_spec, abs_spec, sub_spec. unfold SF64sub.
    destruct (Prim2SF a) as [s|s| |s m e]; try discriminate.
    + destruct s; reflexivity.
    + reflexivity.
Qed.

Local Open Scope R_scope.

(** ** Further facts on the operations *)

Lemma SFadd_comm x y : SF64add x y = SF64add y x.
Proof.
  unfold SF64add.
  destruct x as [sx|sx| |sx mx ex], y as [sy|sy| |sy my ey]; cbn [SFadd];
    try reflexivity; try (destruct sx, sy; reflexivity).
  rewrite (Z.min_comm ey ex). f_equal. apply Z.add_comm.
Qed.

Lemma float_add_comm (a b : float) : (a + b)%float = (b + a)%float.
Proof. apply Prim2SF_inj. rewrite !add_spec. apply SFadd_comm. Qed.

Lemma float_sub_diag (a : float) :
  (a - a)%float = if is_finite a then 0%float else nan.
Proof.
  apply Prim2SF_inj. rewrite sub_spec, is_finite_spec. unfold SF64sub.
  destruct (Prim2SF a) as [s|s| |s m e]; cbn [SFsub SFfinite].
  - destruct s; reflexivity.
  - destruct s; reflexivity.
  - reflexivity.
  - rewrite Z.sub_diag. reflexivity.
Qed.

(** Sum and difference of two approximated numbers. *)
Lemma approx_add_gen a b ra rb da db k :
  approx a ra da -> approx b rb db -> (-1021 <= k <= 970)%Z ->
  - bpow k < ra + rb - (da + db) -> ra + rb + (da + db) < bpow k ->
  approx (a + b) (ra + rb) (da + db + bpow (k - 54)).
Proof.
  intros [Fa Ba] [Fb Bb] Hk Hlo Hhi. unfold approx, finite, F2R in *.
  rewrite add_spec.
  destruct (SFadd_correct (Prim2SF a) (Prim2SF b) k Fa Fb) as [Hf He]; try assumption.
  { apply Rabs_lt_between. lra. }
  split; [exact Hf|]. apply Rabs_le_inv in He. lra.
Qed.

Lemma approx_sub_gen a b ra rb da db k :
  approx a ra da -> approx b rb db -> (-1021 <= k <= 970)%Z ->
  - bpow k < ra - rb - (da + db) -> ra - rb + (da + db) < bpow k ->
  approx (a - b) (ra - rb) (da + db + bpow (k - 54)).
Proof.
  intros [Fa Ba] [Fb Bb] Hk Hlo Hhi. unfold approx, finite, F2R in *.
  rewrite sub_spec.
  destruct (SFsub_correct (Prim2SF a) (Prim2SF b) k Fa Fb) as [Hf He]; try assumption.
  { apply Rabs_lt_between. lra. }
  split; [exact Hf|]. apply Rabs_le_inv in He. lra.
Qed.

(** [abs x <? b], for a positive finite bound [b], bounds [x]. *)
Lemma ltb_abs_elim x b mb eb :
  Prim2SF b = S754_finite false mb eb ->
  (abs x <? b)%float = true ->
  finite x /\ - F2R b < F2R x < F2R b.
Proof.
  intros Eb H. rewrite ltb_spec, abs_spec in H.
  pose proof (Prim2SF_valid x) as Vx. pose proof (Prim2SF_valid b) as Vb.
  unfold finite, F2R. rewrite Eb in *.
  assert (Hb0 : 0 < IZR (Zpos mb) * bpow eb).
  { apply Rmult_lt_0_compat; [apply IZR_lt; lia|apply bpow_pos]. }
  destruct (Prim2SF x) as [sx|sx| |sx mx ex]; cbn [SFabs] in H; try discriminate.
  - split; [reflexivity|]. rewrite SF2R_zero.
    unfold SF2R. cbn [SFsignbit SFmag]. lra.
  - split; [reflexivity|].
    assert (Vx' : valid_binary (S754_finite false mx ex) = true) by exact Vx.
    pose proof (SFcompare_magnitudes mx ex mb eb Vx' Vb) as Hc. cbv zeta in Hc.
    unfold SFltb in H.
    assert (Hlt : IZR (Zpos mx) * bpow ex < IZR (Zpos mb) * bpow eb).
    { destruct (SFcompare (S754_finite false mx ex) (S754_finite false mb eb)) as [[]|];
        try discriminate; lra. }
    assert (H0 : 0 < IZR (Zpos mx) * bpow ex).
    { apply Rmult_lt_0_compat; [apply IZR_lt; lia|apply bpow_pos]. }
    unfold SF2R. cbn [SFsignbit SFmag]. destruct sx; lra.
Qed.

(** The tolerance test fails as soon as one operand is not finite. *)
Lemma AreEqual_finite (a b : float) :
  (abs (a - b) <? 0.001)%float = true -> is_finite a = true /\ is_finite b = true.
Proof.
  rewrite ltb_spec, abs_spec, sub_spec, !is_finite_spec. unfold SF64sub.
  change (Prim2SF 0.001) with (S754_finite false 4611686018427388 (-62)).
  destruct (Prim2SF a) as [sa|sa| |sa ma ea], (Prim2SF b) as [sb|sb| |sb mb eb];
    cbn [SFsub SFabs SFfinite]; try (intros; split; reflexivity);
    try (destruct sa, sb); cbn [SFabs negb]; unfold SFltb; cbn [SFcompare];
    discriminate.
Qed.

Local Open Scope float_scope.

Lemma F2R_eps_bounds : (9999 / 10000000 < F2R 0.001 < 10001 / 10000000)%R.
Proof.
  rewrite (F2R_const 0.001 false 4611686018427388 (-62) eq_refl).
  cbn [cond_Zopp]. bpow_const. lra.
Qed.

Lemma F2R_273_close :
  (27315 / 100 - 1 / 1000000000000 < F2R 273.15 < 27315 / 100 + 1 / 1000000000000)%R.
Proof.
  rewrite (F2R_const 273.15 false 4805305618032230 (-44) eq_refl).
  cbn [cond_Zopp]. bpow_const. lra.
Qed.

Lemma F2R_459_close :
  (45967 / 100 - 1 / 1000000000000 < F2R 459.67 < 45967 / 100 + 1 / 1000000000000)%R.
Proof.
  rewrite (F2R_const 459.67 false 8086600159036703 (-44) eq_refl).
  cbn [cond_Zopp]. bpow_const. lra.
Qed.

(** Moving the real that a double approximates. *)
Lemma approx_shift t r delta r' delta' :
  approx t r delta ->
  (r - r' + delta <= delta')%R -> (r' - r + delta <= delta')%R ->
  approx t r' delta'.
Proof. intros [Hf Hb] H1 H2. split; [exact Hf|lra]. Qed.

(** Two doubles near one real pass the tolerance test. *)
Lemma AreEqual_close (a b : float) (r da db : R) :
  approx a r da -> approx b r db -> (da + db <= 99 / 100000)%R ->
  (abs (a - b) <? 0.001) = true.
Proof.
  intros Ha Hb Hd.
  assert (H0a : (0 <= da)%R) by (destruct Ha as [_ Ha]; lra).
  assert (H0b : (0 <= db)%R) by (destruct Hb as [_ Hb]; lra).
  pose proof (approx_sub_gen a b r r da db (-9) Ha Hb ltac:(lia)) as Hs.
  revert Hs. bpow_const. intros Hs.
  destruct Hs as [Hf Hs]; [lra|lra|].
  pose proof F2R_eps_bounds.
  apply (ltb_abs_intro _ 0.001 4611686018427388 (-62) eq_refl Hf). lra.
Qed.

Ltac discharge H :=
  repeat match type of H with
         | ?P -> _ =>
             let Hp := fresh in assert (Hp : P) by lra; specialize (H Hp); clear Hp
         end.

(** One operation with a constant of the program: the bound [lem] at the
    exponent [k], its side conditions closed by linear arithmetic. *)
Ltac step lem H Hfin k Hn :=
  pose proof (lem _ _ _ _ k H Hfin ltac:(lia)) as Hn;
  revert Hn; consts; bpow_const; intros Hn; discharge Hn.

(** One addition or subtraction of two approximated doubles. *)
Ltac step2 lem Ha Hb k Hn :=
  pose proof (lem _ _ _ _ _ _ k Ha Hb ltac:(lia)) as Hn;
  revert Hn; bpow_const; intros Hn; discharge Hn.

(** A raw value of the working range, as a real. *)
Lemma in_range v :
  (abs v <=? 1e12) = true ->
  approx v (F2R v) 0 /\ (- 1000000000000 <= F2R v <= 1000000000000)%R.
Proof.
  intros Hv. destruct (leb_abs_bound v 1e12 _ _ eq_refl Hv) as [Hf Hb].
  rewrite F2R_1e12 in Hb. split; [apply approx_self; exact Hf|exact Hb].
Qed.

(** ** Each conversion against its formula over the reals *)

Lemma convert_C_K_accurate v :
  (abs v <=? 1e12) = true ->
  approx (v + 273.15) (F2R v + 27315 / 100) (1 / 10000).
Proof.
  intros Hv. destruct (in_range v Hv) as [H0 Hb]. set (x := F2R v) in *.
  pose proof F2R_273_close as Hc.
  step approx_add H0 fin_273 40%Z H1.
  eapply approx_shift; [exact H1|lra|lra].
Qed.

Lemma convert_K_C_accurate v :
  (abs v <=? 1e12) = true ->
  approx (v - 273.15) (F2R v - 27315 / 100) (1 / 10000).
Proof.
  intros Hv. destruct (in_range v Hv) as [H0 Hb]. set (x := F2R v) in *.
  pose proof F2R_273_close as Hc.
  step approx_sub H0 fin_273 40%Z H1.
  eapply approx_shift; [exact H1|lra|lra].
Qed.

Lemma convert_C_F_accurate v :
  (abs v <=? 1e12) = true ->
  approx (v * 9 / 5 + 32) (F2R v * 9 / 5 + 32) (5 / 10000).
Proof.
  intros Hv. destruct (in_range v Hv) as [H0 Hb]. set (x := F2R v) in *.
  step approx_mul H0 fin_9 44%Z H1.
  step approx_div H1 fin_5 41%Z H2.
  step approx_add H2 fin_32 41%Z H3.
  eapply approx_shift; [exact H3|lra|lra].
Qed.

Lemma convert_F_C_accurate v :
  (abs v <=? 1e12) = true ->
  approx ((v - 32) * 5 / 9) ((F2R v - 32) * 5 / 9) (2 / 10000).
Proof.
  intros Hv. destruct (in_range v Hv) as [H0 Hb]. set (x := F2R v) in *.
  step approx_sub H0 fin_32 40%Z H1.
  step approx_mul H1 fin_5 43%Z H2.
  step approx_div H2 fin_9 40%Z H3.
  eapply approx_shift; [exact H3|lra|lra].
Qed.

Lemma convert_F_K_accurate v :
  (abs v <=? 1e12) = true ->
  approx ((v + 459.67) * 5 / 9) ((F2R v + 45967 / 100) * 5 / 9) (2 / 10000).
Proof.
  intros Hv. destruct (in_range v Hv) as [H0 Hb]. set (x := F2R v) in *.
  pose proof F2R_459_close as Hc.
  step approx_add H0 fin_459 40%Z H1.
  step approx_mul H1 fin_5 43%Z H2.
  step approx_div H2 fin_9 40%Z H3.
  eapply approx_shift; [exact H3|lra|lra].
Qed.

Lemma convert_K_F_accurate v :
  (abs v <=? 1e12) = true ->
  approx (v * 9 / 5 - 459.67) (F2R v * 9 / 5 - 45967 / 100) (5 / 10000).
Proof.
  intros Hv. destruct (in_range v Hv) as [H0 Hb]. set (x := F2R v) in *.
  pose proof F2R_459_close as Hc.
  step approx_mul H0 fin_9 44%Z H1.
  step approx_div H1 fin_5 41%Z H2.
  step approx_sub H2 fin_459 41%Z H3.
  eapply approx_shift; [exact H3|lra|lra].
Qed.

(** ** Direct conversions against conversions through Celsius *)

Lemma direct_F_K_close v :
  (abs v <=? 1e12) = true ->
  (abs ((v + 459.67) * 5 / 9 - ((v - 32) * 5 / 9 + 273.15)) <? 0.001) = true.
Proof.
  intros Hv. destruct (in_range v Hv) as [H0 Hb]. set (x := F2R v) in *.
  pose proof F2R_459_close as Hc. pose proof F2R_273_close as Hc'.
  step approx_add H0 fin_459 40%Z HD1.
  step approx_mul HD1 fin_5 43%Z HD2.
  step approx_div HD2 fin_9 40%Z HD3.
  step approx_sub H0 fin_32 40%Z HV1.
  step approx_mul HV1 fin_5 43%Z HV2.
  step approx_div HV2 fin_9 40%Z HV3.
  step approx_add HV3 fin_273 40%Z HV4.
  apply (AreEqual_close _ _ ((x + 45967 / 100) * 5 / 9) (2 / 10000) (3 / 10000)); [| |lra].
  - eapply approx_shift; [exact HD3|lra|lra].
  - eapply approx_shift; [exact HV4|lra|lra].
Qed.

Lemma direct_K_F_close v :
  (abs v <=? 1e12) = true ->
  (abs (v * 9 / 5 - 459.67 - ((v - 273.15) * 9 / 5 + 32)) <? 0.001) = true.
Proof.
  intros Hv. destruct (in_range v Hv) as [H0 Hb]. set (x := F2R v) in *.
  pose proof F2R_459_close as Hc. pose proof F2R_273_close as Hc'.
  step approx_mul H0 fin_9 44%Z HD1.
  step approx_div HD1 fin_5 41%Z HD2.
  step approx_sub HD2 fin_459 41%Z HD3.
  step approx_sub H0 fin_273 40%Z HV1.
  step approx_mul HV1 fin_9 44%Z HV2.
  step approx_div HV2 fin_5 41%Z HV3.
  step approx_add HV3 fin_32 41%Z HV4.
  apply (AreEqual_close _ _ (x * 9 / 5 - 45967 / 100) (44 / 100000) (55 / 100000)); [| |lra].
  - eapply approx_shift; [exact HD3|lra|lra].
  - eapply approx_shift; [exact HV4|lra|lra].
Qed.

(** ** Cycles through the three scales *)

Lemma cycle_C_F_K v :
  (abs v <=? 1e12) = true ->
  (abs (v - ((v * 9 / 5 + 32 + 459.67) * 5 / 9 - 273.15)) <? 0.001) = true.
Proof.
  intros Hv. destruct (in_range v Hv) as [H0 Hb]. set (x := F2R v) in *.
  pose proof F2R_459_close as Hc. pose proof F2R_273_close as Hc'.
  step approx_mul H0 fin_9 44%Z St1.
  step approx_div St1 fin_5 41%Z St2.
  step approx_add St2 fin_32 41%Z St3.
  step approx_add St3 fin_459 41%Z St4.
  step approx_mul St4 fin_5 44%Z St5.
  step approx_div St5 fin_9 40%Z St6.
  step approx_sub St6 fin_273 40%Z St7.
  apply (AreEqual_close _ _ x 0 (6 / 10000)); [exact H0| |lra].
  eapply approx_shift; [exact St7|lra|lra].
Qed.

Lemma cycle_C_K_F v :
  (abs v <=? 1e12) = true ->
  (abs (v - (((v + 273.15) * 9 / 5 - 459.67 - 32) * 5 / 9)) <? 0.001) = true.
Proof.
  intros Hv. destruct (in_range v Hv) as [H0 Hb]. set (x := F2R v) in *.
  pose proof F2R_459_close as Hc. pose proof F2R_273_close as Hc'.
  step approx_add H0 fin_273 40%Z St1.
  step approx_mul St1 fin_9 44%Z St2.
  step approx_div St2 fin_5 41%Z St3.
  step approx_sub St3 fin_459 41%Z St4.
  step approx_sub St4 fin_32 41%Z St5.
  step approx_mul St5 fin_5 44%Z St6.
  step approx_div St6 fin_9 40%Z St7.
  apply (AreEqual_close _ _ x 0 (6 / 10000)); [exact H0| |lra].
  eapply approx_shift; [exact St7|lra|lra].
Qed.

Lemma cycle_F_C_K v :
  (abs v <=? 1e12) = true ->
  (abs (v - (((v - 32) * 5 / 9 + 273.15) * 9 / 5 - 459.67)) <? 0.001) = true.
Proof.
  intros Hv. destruct (in_range v Hv) as [H0 Hb]. set (x := F2R v) in *.
  pose proof F2R_459_close as Hc. pose proof F2R_273_close as Hc'.
  step approx_sub H0 fin_32 40%Z St1.
  step approx_mul St1 fin_5 43%Z St2.
  step approx_div St2 fin_9 40%Z St3.
  step approx_add St3 fin_273 40%Z St4.
  step approx_mul St4 fin_9 43%Z St5.
  step approx_div St5 fin_5 40%Z St6.
  step approx_sub St6 fin_459 40%Z St7.
  apply (AreEqual_close _ _ x 0 (9 / 10000)); [exact H0| |lra].
  eapply approx_shift; [exact St7|lra|lra].
Qed.

Lemma cycle_F_K_C v :
  (abs v <=? 1e12) = true ->
  (abs (v - (((v + 459.67) * 5 / 9 - 273.15) * 9 / 5 + 32)) <? 0.001) = true.
Proof.
  intros Hv. destruct (in_range v Hv) as [H0 Hb]. set (x := F2R v) in *.
  pose proof F2R_459_close as Hc. pose proof F2R_273_close as Hc'.
  step approx_add H0 fin_459 40%Z St1.
  step approx_mul St1 fin_5 43%Z St2.
  step approx_div St2 fin_9 40%Z St3.
  step approx_sub St3 fin_273 40%Z St4.
  step approx_mul St4 fin_9 43%Z St5.
  step approx_div St5 fin_5 40%Z St6.
  step approx_add St6 fin_32 40%Z St7.
  apply (AreEqual_close _ _ x 0 (9 / 10000)); [exact H0| |lra].
  eapply approx_shift; [exact St7|lra|lra].
Qed.

Lemma cycle_K_C_F v :
  (abs v <=? 1e12) = true ->
  (abs (v - (((v - 273.15) * 9 / 5 + 32 + 459.67) * 5 / 9)) <? 0.001) = true.
Proof.
  intros Hv. destruct (in_range v Hv) as [H0 Hb]. set (x := F2R v) in *.
  pose proof F2R_459_close as Hc. pose proof F2R_273_close as Hc'.
  step approx_sub H0 fin_273 40%Z St1.
  step approx_mul St1 fin_9 44%Z St2.
  step approx_div St2 fin_5 41%Z St3.
  step approx_add St3 fin_32 41%Z St4.
  step approx_add St4 fin_459 41%Z St5.
  step approx_mul St5 fin_5 44%Z St6.
  step approx_div St6 fin_9 40%Z St7.
  apply (AreEqual_close _ _ x 0 (6 / 10000)); [exact H0| |lra].
  eapply approx_shift; [exact St7|lra|lra].
Qed.

Lemma cycle_K_F_C v :
  (abs v <=? 1e12) = true ->
  (abs (v - ((v * 9 / 5 - 459.67 - 32) * 5 / 9 + 273.15)) <? 0.001) = true.
Proof.
  intros Hv. destruct (in_range v Hv) as [H0 Hb]. set (x := F2R v) in *.
  pose proof F2R_459_close as Hc. pose proof F2R_273_close as Hc'.
  step approx_mul H0 fin_9 44%Z St1.
  step approx_div St1 fin_5 41%Z St2.
  step approx_sub St2 fin_459 41%Z St3.
  step approx_sub St3 fin_32 41%Z St4.
  step approx_mul St4 fin_5 44%Z St5.
  step approx_div St5 fin_9 40%Z St6.
  step approx_add St6 fin_273 40%Z St7.
  apply (AreEqual_close _ _ x 0 (6 / 10000)); [exact H0| |lra].
  eapply approx_shift; [exact St7|lra|lra].
Qed.

(** ** Sums and differences of quantities *)

Lemma add_then_sub_close a b :
  (abs a <=? 1e12) = true -> (abs b <=? 1e12) = true ->
  (abs (a + b - b - a) <? 0.001) = true /\ (abs (a - b + b - a) <? 0.001) = true.
Proof.
  intros Ha Hb. destruct (in_range a Ha) as [A0 Ba]. destruct (in_range b Hb) as [B0 Bb].
  set (x := F2R a) in *. set (y := F2R b) in *.
  step2 approx_add_gen A0 B0 41%Z HS1.
  step2 approx_sub_gen HS1 B0 41%Z HS2.
  step2 approx_sub_gen A0 B0 41%Z HT1.
  step2 approx_add_gen HT1 B0 41%Z HT2.
  split.
  - apply (AreEqual_close _ _ x (3 / 10000) 0); [|exact A0|lra].
    eapply approx_shift; [exact HS2|lra|lra].
  - apply (AreEqual_close _ _ x (3 / 10000) 0); [|exact A0|lra].
    eapply approx_shift; [exact HT2|lra|lra].
Qed.

Lemma add_assoc_close a b c :
  (abs a <=? 1e12) = true -> (abs b <=? 1e12) = true -> (abs c <=? 1e12) = true ->
  (abs (a + b + c - (a + (b + c))) <? 0.001) = true.
Proof.
  intros Ha Hb Hc. destruct (in_range a Ha) as [A0 Ba].
  destruct (in_range b Hb) as [B0 Bb]. destruct (in_range c Hc) as [C0 Bc].
  set (x := F2R a) in *. set (y := F2R b) in *. set (z := F2R c) in *.
  step2 approx_add_gen A0 B0 41%Z HL1.
  step2 approx_add_gen HL1 C0 42%Z HL2.
  step2 approx_add_gen B0 C0 41%Z HR1.
  step2 approx_add_gen A0 HR1 42%Z HR2.
  apply (AreEqual_close _ _ (x + y + z) (4 / 10000) (4 / 10000)); [| |lra].
  - eapply approx_shift; [exact HL2|lra|lra].
  - eapply approx_shift; [exact HR2|lra|lra].
Qed.

Local Open Scope R_scope.

(** ** The tolerance test and the distance of the reals *)

Lemma dyadic_interval x n :
  bpow (-9) <= x < bpow (-9 + Z.of_nat n) ->
  exists k, (-9 < k <= -9 + Z.of_nat n)%Z /\ bpow (k - 1) <= x < bpow k.
Proof.
  induction n as [|n IH]; intros [Hlo Hhi].
  - change (Z.of_nat 0) with 0%Z in Hhi. rewrite Z.add_0_r in Hhi. lra.
  - destruct (Rlt_le_dec x (bpow (-9 + Z.of_nat n))) as [Hlt|Hge].
    + destruct (IH (conj Hlo Hlt)) as (k & Hk & Hx). exists k. split; [lia|exact Hx].
    + exists (-9 + Z.of_nat (S n))%Z. split; [lia|].
      replace (-9 + Z.of_nat (S n) - 1)%Z with (-9 + Z.of_nat n)%Z by lia.
      split; assumption.
Qed.


Local Open Scope float_scope.

Lemma AreEqual_complete (a b : float) :
  finite a -> finite b -> (Rabs (F2R a - F2R b) <= 999 / 1000000)%R ->
  (abs (a - b) <? 0.001) = true.
Proof.
  intros Fa Fb Hd. apply Rabs_le_inv in Hd.
  pose proof (approx_sub_gen a b _ _ 0 0 (-9) (approx_self a Fa) (approx_self b Fb)
                ltac:(lia)) as Hs.
  revert Hs. bpow_const. intros Hs.
  destruct Hs as [Hf Hs]; [lra|lra|].
  pose proof F2R_eps_bounds.
  apply (ltb_abs_intro _ 0.001 4611686018427388 (-62) eq_refl Hf). lra.
Qed.

Lemma AreEqual_sound (a b : float) :
  (abs a <=? 1e12) = true -> (abs b <=? 1e12) = true ->
  (abs (a - b) <? 0.001) = true ->
  (Rabs (F2R a - F2R b) < 1001 / 1000000)%R.
Proof.
  intros Ha Hb He.
  destruct (in_range a Ha) as [[Fa _] Ba]. destruct (in_range b Hb) as [[Fb _] Bb].
  destruct (ltb_abs_elim _ 0.001 _ _ eq_refl He) as [Ff Hlt].
  pose proof F2R_eps_bounds as Heps.
  set (d := (F2R a - F2R b)%R) in *.
  assert (Herr : forall k, (-1021 <= k <= 970)%Z -> (Rabs d < bpow k)%R ->
            (Rabs (F2R (a - b) - d) <= bpow (k - 54))%R).
  { intros k Hk Hdk. unfold F2R, finite in *. rewrite sub_spec.
    apply (SFsub_correct (Prim2SF a) (Prim2SF b) k Fa Fb Hdk Hk). }
  destruct (Rlt_le_dec (Rabs d) (bpow (-9))) as [Hsmall|Hbig].
  - specialize (Herr (-9)%Z ltac:(lia) Hsmall).
    revert Herr. bpow_const. intros Herr. apply Rabs_le_inv in Herr.
    apply Rabs_lt_between. lra.
  - exfalso.
    assert (Hup : (Rabs d < bpow (-9 + Z.of_nat 50))%R).
    { apply Rabs_lt_between. unfold d. bpow_const. lra. }
    destruct (dyadic_interval (Rabs d) 50 (conj Hbig Hup)) as (k & Hk & Hlo & Hhi).
    specialize (Herr k ltac:(lia) Hhi). apply Rabs_le_inv in Herr.
    assert (Hk9 : (bpow (-9) <= bpow (k - 1))%R) by (apply bpow_le; lia).
    assert (Hk54 : (bpow (k - 54) = bpow (k - 1) * bpow (-53))%R).
    { rewrite <- bpow_add. f_equal. lia. }
    rewrite Hk54 in Herr. pose proof (bpow_pos (k - 1)) as Hpos.
    revert Hk9 Herr. bpow_const. intros Hk9 Herr.
    unfold Rabs in Hlo. destruct (Rcase_abs d); nra.
Qed.

(** ** Casting out of Fahrenheit keeps quantities equal *)

Lemma cast_from_F_keeps_equal a b :
  (abs a <=? 1e12) = true -> (abs b <=? 1e12) = true ->
  (abs (a - b) <? 0.001) = true ->
  (abs ((a - 32) * 5 / 9 - (b - 32) * 5 / 9) <? 0.001) = true /\
  (abs ((a + 459.67) * 5 / 9 - (b + 459.67) * 5 / 9) <? 0.001) = true.
Proof.
  intros Ha Hb He. pose proof (AreEqual_sound a b Ha Hb He) as Hd.
  apply Rabs_def2 in Hd.
  destruct (in_range a Ha) as [A0 Ba]. destruct (in_range b Hb) as [B0 Bb].
  set (x := F2R a) in *. set (y := F2R b) in *.
  pose proof F2R_459_close as Hc.
  step approx_sub A0 fin_32 40%Z HA1.
  step approx_mul HA1 fin_5 43%Z HA2.
  step approx_div HA2 fin_9 40%Z HA3.
  step approx_sub B0 fin_32 40%Z HB1.
  step approx_mul HB1 fin_5 43%Z HB2.
  step approx_div HB2 fin_9 40%Z HB3.
  step approx_add A0 fin_459 40%Z HC1.
  step approx_mul HC1 fin_5 43%Z HC2.
  step approx_div HC2 fin_9 40%Z HC3.
  step approx_add B0 fin_459 40%Z HD1.
  step approx_mul HD1 fin_5 43%Z HD2.
  step approx_div HD2 fin_9 40%Z HD3.
  split.
  - apply (AreEqual_close _ _ ((x - 32) * 5 / 9) (2 / 10000) (78 / 100000)); [| |lra].
    + eapply approx_shift; [exact HA3|lra|lra].
    + eapply approx_shift; [exact HB3|lra|lra].
  - apply (AreEqual_close _ _ ((x + F2R 459.67) * 5 / 9) (2 / 10000) (78 / 100000)); [| |lra].
    + eapply approx_shift; [exact HC3|lra|lra].
    + eapply approx_shift; [exact HD3|lra|lra].
Qed.

(** ** Values that are not finite *)

Section NotFinite.

Variables (v c : float) (s : bool) (m : positive) (e : Z).
Hypothesis Hc : Prim2SF c = S754_finite s m e.
Hypothesis Hv : is_finite v = false.

Lemma not_finite_add : is_finite (v + c) = false.
Proof.
  rewrite is_finite_spec in *. rewrite add_spec, Hc. unfold SF64add.
  destruct (Prim2SF v); try discriminate; reflexivity.
Qed.

Lemma not_finite_sub : is_finite (v - c) = false.
Proof.
  rewrite is_finite_spec in *. rewrite sub_spec, Hc. unfold SF64sub.
  destruct (Prim2SF v); try discriminate; reflexivity.
Qed.

Lemma not_finite_mul : is_finite (v * c) = false.
Proof.
  rewrite is_finite_spec in *. rewrite mul_spec, Hc. unfold SF64mul.
  destruct (Prim2SF v); try discriminate; reflexivity.
Qed.

Lemma not_finite_div : is_finite (v / c) = false.
Proof.
  rewrite is_finite_spec in *. rewrite div_spec, Hc. unfold SF64div.
  destruct (Prim2SF v); try discriminate; reflexivity.
Qed.

End NotFinite.

Lemma not_finite_conversions v :
  is_finite v = false ->
  is_finite (v + 273.15) = false /\ is_finite (v - 273.15) = false /\
  is_finite (v * 9 / 5 + 32) = false /\ is_finite ((v - 32) * 5 / 9) = false /\
  is_finite ((v + 459.67) * 5 / 9) = false /\ is_finite (v * 9 / 5 - 459.67) = false.
Proof.
  intros Hv.
  pose proof (fun x H => not_finite_add x 273.15 _ _ _ eq_refl H) as A273.
  pose proof (fun x H => not_finite_sub x 273.15 _ _ _ eq_refl H) as S273.
  pose proof (fun x H => not_finite_add x 459.67 _ _ _ eq_refl H) as A459.
  pose proof (fun x H => not_finite_sub x 459.67 _ _ _ eq_refl H) as S459.
  pose proof (fun x H => not_finite_add x 32 _ _ _ eq_refl H) as A32.
  pose proof (fun x H => not_finite_sub x 32 _ _ _ eq_refl H) as S32.
  pose proof (fun x H => not_finite_mul x 9 _ _ _ eq_refl H) as M9.
  pose proof (fun x H => not_finite_mul x 5 _ _ _ eq_refl H) as M5.
  pose proof (fun x H => not_finite_div x 9 _ _ _ eq_refl H) as D9.
  pose proof (fun x H => not_finite_div x 5 _ _ _ eq_refl H) as D5.
  repeat split; auto.
Qed.

End B64.

(** The literals of the program text, as doubles. *)
Example literals_as_doubles :
  (lit 0.001 : float) = 0.001%float /\
  (lit 273.15 : float) = 273.15%float /\
  (lit 459.67 : float) = 459.67%float /\
  (lit 9 : float) = 9%float /\
  (lit 5 : float) = 5%float /\
  (lit 32 : float) = 32%float.
Proof. repeat split. Qed.

Section Binary64.

Local Open Scope float_scope.

Let Q64 := Quantity float.

(** C1: [temperature_cast] exists for each of the six ordered pairs of
    distinct scales and is the function that applies the listed formula to
    the raw value and tags the result with the target scale. *)
Theorem temperature_cast_formulas :
  temperature_cast KELVIN CELSIUS
    = Some (fun q : Q64 CELSIUS => mkQuantity KELVIN (amount q + 273.15)) /\
  temperature_cast CELSIUS KELVIN
    = Some (fun q : Q64 KELVIN => mkQuantity CELSIUS (amount q - 273.15)) /\
  temperature_cast FAHRENHEIT CELSIUS
    = Some (fun q : Q64 CELSIUS => mkQuantity FAHRENHEIT ((amount q * 9) / 5 + 32)) /\
  temperature_cast CELSIUS FAHRENHEIT
    = Some (fun q : Q64 FAHRENHEIT => mkQuantity CELSIUS ((amount q - 32) * 5 / 9)) /\
  temperature_cast KELVIN FAHRENHEIT
    = Some (fun q : Q64 FAHRENHEIT => mkQuantity KELVIN ((amount q + 459.67) * 5 / 9)) /\
  temperature_cast FAHRENHEIT KELVIN
    = Some (fun q : Q64 KELVIN => mkQuantity FAHRENHEIT ((amount q * 9) / 5 - 459.67)).
Proof. repeat split. Qed.

(** C3: [a == b] is the test [abs (a - b) < EPSILON] on the raw values,
    with [EPSILON] the double [0.001], and [a != b] is its negation. *)
Theorem operator_eq_tolerance (S : Scale) (a b : Q64 S) :
  EPSILON = 0.001 /\
  operator_eq a b = (abs (amount a - amount b) <? 0.001) /\
  operator_ne a b = negb (operator_eq a b).
Proof. repeat split. Qed.

(** C4: whatever the fuel, a call of [operator<] on two quantities of one
    scale returns no value, and neither do [>], [<=] and [>=], which call
    it. *)
Theorem operator_lt_diverges (fuel : nat) (S : Scale) (lhs rhs : Q64 S) :
  operator_lt fuel lhs rhs = None /\
  operator_gt fuel lhs rhs = None /\
  operator_le fuel lhs rhs = None /\
  operator_ge fuel lhs rhs = None.
Proof.
  assert (Hlt : forall n (x y : Q64 S), operator_lt n x y = None).
  { induction n as [|n IH]; intros x y; simpl; [reflexivity | apply IH]. }
  assert (Hgt : forall n (x y : Q64 S), operator_gt n x y = None).
  { destruct n; intros x y; simpl; [reflexivity | apply Hlt]. }
  repeat split; auto.
  - destruct fuel; simpl; [reflexivity | now rewrite Hgt].
  - destruct fuel; simpl; [reflexivity | now rewrite Hlt].
Qed.


(** C6: 0.0 Celsius is exactly 273.15 Kelvin and exactly 32.0 Fahrenheit,
    and -459.67 Fahrenheit is exactly 0.0 Kelvin: the results are these
    very doubles. *)
Theorem exact_fixed_points :
  cast_value KELVIN (_deg 0.0) = Some (_k 273.15) /\
  cast_value FAHRENHEIT (_deg 0.0) = Some (_f 32.0) /\
  cast_value KELVIN (_f (-459.67)) = Some (_k 0.0).
Proof. repeat split; vm_compute; reflexivity. Qed.

(** C7: [a + b] and [a - b] are quantities of the scale of [a] and [b]
    whose raw values are the sum and the difference of the raw values;
    the operands are values, nothing is written to them. *)
Theorem operator_add_sub_raw (S : Scale) (a b : Q64 S) :
  operator_add a b = mkQuantity S (amount a + amount b) /\
  operator_sub a b = mkQuantity S (amount a - amount b) /\
  amount (operator_add a b) = amount a + amount b /\
  amount (operator_sub a b) = amount a - amount b.
Proof. repeat split. Qed.

(** C8: a conversion is defined for a pair of scales exactly when the two
    differ, which are the six listed pairs; [temperature_cast] for a pair
    without one, an identity pair in particular, has no instantiation,
    whatever quantity the program would pass; and an instantiation that
    exists returns a quantity for every argument. *)
Theorem conversion_defined_iff_distinct (S R : Scale) :
  (ConversionTraits (real := float) S R <> None <-> S <> R) /\
  (S <> R <->
     In (S, R) [(CELSIUS, KELVIN); (KELVIN, CELSIUS); (CELSIUS, FAHRENHEIT);
                (FAHRENHEIT, CELSIUS); (FAHRENHEIT, KELVIN); (KELVIN, FAHRENHEIT)]) /\
  (temperature_cast (real := float) R S = None <-> S = R) /\
  temperature_cast (real := float) S S = None /\
  (forall q : Q64 S, cast_value R q = None <-> S = R) /\
  (forall q : Q64 S, (exists r, cast_value R q = Some r) <-> S <> R).
Proof.
  assert (Hself : temperature_cast (real := float) S S = None)
    by (destruct S; reflexivity).
  split; [|split; [|split; [|split; [exact Hself|split]]]].
  - destruct S, R; simpl; split; intros H; congruence.
  - destruct S, R; simpl; split; intros H;
      solve [ congruence | intuition congruence ].
  - unfold temperature_cast.
    destruct S, R; simpl; split; intros H; congruence.
  - intros q. unfold cast_value, temperature_cast. revert q.
    destruct S, R; intros q; simpl; split; intros H; congruence.
  - intros q. unfold cast_value, temperature_cast. revert q.
    destruct S, R; intros q; simpl; split;
      solve [ intros [r H]; congruence
            | intros H; congruence
            | intros _; eexists; reflexivity ].
Qed.

(** What each round trip of [main] computes on the raw value. *)
Lemma round_trip_unfold (v : float) :
  round_trip FAHRENHEIT (_deg v)
    = Some (abs (v - ((v * 9 / 5 + 32 - 32) * 5 / 9)) <? 0.001) /\
  round_trip KELVIN (_deg v)
    = Some (abs (v - (v + 273.15 - 273.15)) <? 0.001) /\
  round_trip CELSIUS (_f v)
    = Some (abs (v - ((v - 32) * 5 / 9 * 9 / 5 + 32)) <? 0.001) /\
  round_trip KELVIN (_f v)
    = Some (abs (v - ((v + 459.67) * 5 / 9 * 9 / 5 - 459.67)) <? 0.001) /\
  round_trip CELSIUS (_k v)
    = Some (abs (v - (v - 273.15 + 273.15)) <? 0.001) /\
  round_trip FAHRENHEIT (_k v)
    = Some (abs (v - ((v * 9 / 5 - 459.67 + 459.67) * 5 / 9)) <? 0.001).
Proof. repeat split. Qed.

(** C2, as stated, fails: 7.99e12 Fahrenheit cast to Kelvin and back
    differs from the original by 2^-9, which is not below [EPSILON]. *)
Lemma round_trip_fails_at_7_99e12 :
  round_trip KELVIN (_f 7.99e12) = Some false /\
  (exists tk tf,
      cast_value KELVIN (_f 7.99e12) = Some tk /\
      cast_value FAHRENHEIT tk = Some tf /\
      amount tf - 7.99e12 = 0.001953125 /\
      operator_eq tf (_f 7.99e12) = false /\
      operator_eq (_f 7.99e12) tf = false).
Proof.
  split; [vm_compute; reflexivity|].
  do 2 eexists. repeat split; vm_compute; reflexivity.
Qed.

(** [==] does not depend on the order of its operands. *)
Lemma operator_eq_sym (S : Scale) (a b : Q64 S) : operator_eq a b = operator_eq b a.
Proof. exact (B64.AreEqual_sym (amount a) (amount b)). Qed.

(** C2, amended: for every quantity whose raw value is at most 10^12 in
    magnitude (hence neither infinite nor NaN) and every other scale [T],
    the cast to [T] and back yields a quantity equal to the original within
    [EPSILON]. *)
Theorem round_trip_within_tolerance (S T : Scale) (q : Q64 S) :
  S <> T -> (abs (amount q) <=? 1e12) = true ->
  round_trip T q = Some true /\
  exists there back,
    cast_value T q = Some there /\ cast_value S there = Some back /\
    operator_eq back q = true /\ operator_eq q back = true.
Proof.
  intros Hne Hb.
  assert (Hrt : round_trip T q = Some true).
  { destruct q as [v]. cbn [amount] in Hb.
    destruct (round_trip_unfold v) as (CF & CK & FC & FK & KC & KF).
    destruct S, T; try congruence.
    - change (round_trip FAHRENHEIT (_deg v) = Some true).
      rewrite CF. f_equal. apply B64.round_trip_C_F. exact Hb.
    - change (round_trip KELVIN (_deg v) = Some true).
      rewrite CK. f_equal. apply B64.round_trip_C_K. exact Hb.
    - change (round_trip CELSIUS (_f v) = Some true).
      rewrite FC. f_equal. apply B64.round_trip_F_C. exact Hb.
    - change (round_trip KELVIN (_f v) = Some true).
      rewrite FK. f_equal. apply B64.round_trip_F_K. exact Hb.
    - change (round_trip CELSIUS (_k v) = Some true).
      rewrite KC. f_equal. apply B64.round_trip_K_C. exact Hb.
    - change (round_trip FAHRENHEIT (_k v) = Some true).
      rewrite KF. f_equal. apply B64.round_trip_K_F. exact Hb. }
  split; [exact Hrt|].
  unfold round_trip in Hrt.
  destruct (cast_value T q) as [there|] eqn:Ethere; [|discriminate].
  destruct (cast_value S there) as [back|] eqn:Eback; [|discriminate].
  exists there, back. injection Hrt as Heq.
  split; [reflexivity|split; [exact Eback|split]];
    [rewrite operator_eq_sym|]; exact Heq.
Qed.

Lemma round_trip_within_tolerance_witness :
  CELSIUS <> FAHRENHEIT /\ (abs (amount (_deg 36.5)) <=? 1e12) = true /\
  round_trip FAHRENHEIT (_deg 36.5) = Some true.
Proof.
  assert (Hne : CELSIUS <> FAHRENHEIT) by discriminate.
  assert (Hb : (abs (amount (_deg 36.5)) <=? 1e12) = true) by reflexivity.
  split; [exact Hne|]. split; [exact Hb|].
  exact (proj1 (round_trip_within_tolerance CELSIUS FAHRENHEIT (_deg 36.5) Hne Hb)).
Defined.

(** C10, as stated, fails: the sum of two finite quantities can be
    infinite, and an infinite quantity is not equal to itself. *)
Lemma operator_eq_not_reflexive :
  let a := operator_add (_deg 1e308) (_deg 1e308) in
  amount a = infinity /\ operator_eq a a = false.
Proof. split; vm_compute; reflexivity. Qed.

(** C10, amended: [==] relates a quantity to itself exactly when its raw
    value is finite, it is symmetric on all quantities, and it is not
    transitive: 0 and 0.0009 are equal, 0.0009 and 0.0018 are equal, 0 and
    0.0018 are not. *)
Theorem operator_eq_reflexive_symmetric_not_transitive :
  (forall (S : Scale) (a : Q64 S), operator_eq a a = is_finite (amount a)) /\
  (forall (S : Scale) (a b : Q64 S), operator_eq a b = operator_eq b a) /\
  (forall S : Scale,
      let a := mkQuantity S 0 in
      let b := mkQuantity S 0.0009 in
      let c := mkQuantity S 0.0018 in
      operator_eq a b = true /\ operator_eq b c = true /\ operator_eq a c = false).
Proof.
  split; [|split].
  - intros S a. exact (B64.AreEqual_refl_iff_finite (amount a)).
  - intros S a b. apply operator_eq_sym.
  - intros S. repeat split; vm_compute; reflexivity.
Qed.

End Binary64.

Section Exact.

Local Open Scope Q_scope.

(** C9: over the rationals, the direct conversion between Fahrenheit and
    Kelvin is the composition of the two conversions through Celsius, in
    both directions. *)
Theorem direct_is_composition_through_celsius (v : Q) :
  (exists a c b,
      Convert FAHRENHEIT KELVIN v = Some a /\
      Convert FAHRENHEIT CELSIUS v = Some c /\
      Convert CELSIUS KELVIN c = Some b /\
      a == (v + 459.67) * 5 / 9 /\
      b == ((v - 32) * 5 / 9) + 273.15 /\
      a == b) /\
  (exists a c b,
      Convert KELVIN FAHRENHEIT v = Some a /\
      Convert KELVIN CELSIUS v = Some c /\
      Convert CELSIUS FAHRENHEIT c = Some b /\
      a == (v * 9) / 5 - 459.67 /\
      b == ((v - 273.15) * 9) / 5 + 32 /\
      a == b).
Proof.
  split; do 3 eexists; repeat (split; [reflexivity|]); simpl; field.
Qed.

End Exact.

(** * Further properties of the program *)

(** The formulas of the program over the real numbers. *)
#[export] Instance reals : Arith R := {
  add := Rplus;
  sub := Rminus;
  mul := Rmult;
  div := Rdiv;
  fabs := Rabs;
  ltb := fun a b => if Rlt_dec a b then true else false;
  lit := Q2R
}.

Section MoreOnBinary64.

Local Open Scope float_scope.

Let Q64 := Quantity float.

(** X1: [operator+] is commutative: [a + b] and [b + a] are the same
    quantity, for all raw values, NaN and the infinities included. *)
Theorem operator_add_comm (S : Scale) (a b : Q64 S) :
  operator_add a b = operator_add b a.
Proof.
  unfold operator_add. f_equal. apply B64.float_add_comm.
Qed.

(** X2: [a - a] has the raw value [+0.0] when the raw value of [a] is
    finite, and NaN when it is infinite or NaN. *)
Theorem operator_sub_self (S : Scale) (a : Q64 S) :
  operator_sub a a = mkQuantity S (if is_finite (amount a) then 0 else nan).
Proof.
  unfold operator_sub. f_equal. apply B64.float_sub_diag.
Qed.

(** X3: [==] never holds when the raw value of an operand is infinite or
    NaN. *)
Theorem operator_eq_only_finite (S : Scale) (a b : Q64 S) :
  operator_eq a b = true ->
  is_finite (amount a) = true /\ is_finite (amount b) = true.
Proof. exact (B64.AreEqual_finite (amount a) (amount b)). Qed.

Lemma operator_eq_only_finite_witness :
  operator_eq (_deg 36.5) (_deg 36.5004) = true /\
  is_finite (amount (_deg 36.5)) = true /\ is_finite (amount (_deg 36.5004)) = true.
Proof.
  assert (H : operator_eq (_deg 36.5) (_deg 36.5004) = true) by reflexivity.
  split; [exact H|].
  exact (operator_eq_only_finite CELSIUS (_deg 36.5) (_deg 36.5004) H).
Defined.

(** X4: on raw values of magnitude at most 10^12, [==] is the test on the
    real distance up to one part in a thousand of the tolerance: it holds
    when the distance is at most 0.000999, and when it holds the distance
    is below 0.001001. *)
Theorem operator_eq_real_distance (S : Scale) (a b : Q64 S) :
  (abs (amount a) <=? 1e12) = true -> (abs (amount b) <=? 1e12) = true ->
  ((Rabs (B64.F2R (amount a) - B64.F2R (amount b)) <= 999 / 1000000)%R ->
   operator_eq a b = true) /\
  (operator_eq a b = true ->
   (Rabs (B64.F2R (amount a) - B64.F2R (amount b)) < 1001 / 1000000)%R).
Proof.
  intros Ha Hb. split.
  - intros Hd. destruct (B64.in_range _ Ha) as [[Fa _] _].
    destruct (B64.in_range _ Hb) as [[Fb _] _].
    exact (B64.AreEqual_complete _ _ Fa Fb Hd).
  - exact (B64.AreEqual_sound _ _ Ha Hb).
Qed.

Lemma operator_eq_real_distance_witness :
  (abs (amount (_deg 36.5)) <=? 1e12) = true /\
  (abs (amount (_deg 36.5004)) <=? 1e12) = true /\
  (operator_eq (_deg 36.5) (_deg 36.5004) = true ->
   (Rabs (B64.F2R 36.5 - B64.F2R 36.5004) < 1001 / 1000000)%R).
Proof.
  assert (Ha : (abs (amount (_deg 36.5)) <=? 1e12) = true) by reflexivity.
  assert (Hb : (abs (amount (_deg 36.5004)) <=? 1e12) = true) by reflexivity.
  split; [exact Ha|]. split; [exact Hb|].
  exact (proj2 (operator_eq_real_distance CELSIUS (_deg 36.5) (_deg 36.5004) Ha Hb)).
Defined.

(** X5: on a raw value of magnitude at most 10^12 each of the six
    conversions yields a finite raw value within 0.0005 of what its formula
    gives over the real numbers. *)
Theorem temperature_cast_accuracy (S T : Scale) (q : Q64 S) :
  S <> T -> (abs (amount q) <=? 1e12) = true ->
  exists (r : Q64 T) (x : R),
    cast_value T q = Some r /\
    Convert S T (B64.F2R (amount q)) = Some x /\
    is_finite (amount r) = true /\
    (Rabs (B64.F2R (amount r) - x) <= 5 / 10000)%R.
Proof.
  intros Hne Hb. destruct q as [v]. cbn [amount] in Hb.
  assert (Hfin : forall (t : float) (x d : R), B64.approx t x d -> (d <= 5 / 10000)%R ->
            is_finite t = true /\ (Rabs (B64.F2R t - x) <= 5 / 10000)%R).
  { intros t x d [Hf Hx] Hd. split; [rewrite B64.is_finite_spec; exact Hf|].
    apply Rabs_le. lra. }
  destruct S, T; try congruence; do 2 eexists;
    (split; [reflexivity|split; [reflexivity|]]);
    cbn [amount lit reals add sub mul div]; unfold Q2R; cbn [Qnum Qden].
  - eapply Hfin.
    + eapply B64.approx_weaken; [exact (B64.convert_C_F_accurate v Hb)|lra|apply Rle_refl].
    + lra.
  - eapply Hfin.
    + eapply B64.approx_weaken; [exact (B64.convert_C_K_accurate v Hb)|lra|apply Rle_refl].
    + lra.
  - eapply Hfin.
    + eapply B64.approx_weaken; [exact (B64.convert_F_C_accurate v Hb)|lra|apply Rle_refl].
    + lra.
  - eapply Hfin.
    + eapply B64.approx_weaken; [exact (B64.convert_F_K_accurate v Hb)|lra|apply Rle_refl].
    + lra.
  - eapply Hfin.
    + eapply B64.approx_weaken; [exact (B64.convert_K_C_accurate v Hb)|lra|apply Rle_refl].
    + lra.
  - eapply Hfin.
    + eapply B64.approx_weaken; [exact (B64.convert_K_F_accurate v Hb)|lra|apply Rle_refl].
    + lra.
Qed.

Lemma temperature_cast_accuracy_witness :
  CELSIUS <> FAHRENHEIT /\ (abs (amount (_deg 36.5)) <=? 1e12) = true /\
  exists (r : Quantity float FAHRENHEIT) (x : R),
    cast_value FAHRENHEIT (_deg 36.5) = Some r /\
    Convert CELSIUS FAHRENHEIT (B64.F2R (amount (_deg 36.5))) = Some x /\
    is_finite (amount r) = true /\
    (Rabs (B64.F2R (amount r) - x) <= 5 / 10000)%R.
Proof.
  assert (Hne : CELSIUS <> FAHRENHEIT) by discriminate.
  assert (Hb : (abs (amount (_deg 36.5)) <=? 1e12) = true) by reflexivity.
  split; [exact Hne|]. split; [exact Hb|].
  exact (temperature_cast_accuracy CELSIUS FAHRENHEIT (_deg 36.5) Hne Hb).
Defined.

(** X6: a conversion never turns an infinite or NaN raw value into a finite
    one, and a round trip from such a quantity compares unequal to it. *)
Theorem temperature_cast_keeps_not_finite (S T : Scale) (q : Q64 S) :
  S <> T -> is_finite (amount q) = false ->
  (exists r : Q64 T, cast_value T q = Some r /\ is_finite (amount r) = false) /\
  round_trip T q = Some false.
Proof.
  intros Hne Hq. destruct q as [v]. cbn [amount] in Hq.
  destruct (B64.not_finite_conversions v Hq) as (CK & KC & CF & FC & FK & KF).
  split.
  - destruct S, T; try congruence; eexists; (split; [reflexivity|]); assumption.
  - assert (Hrt : exists back : Q64 S,
               round_trip T (mkQuantity S v) = Some (operator_eq (mkQuantity S v) back)).
    { destruct S, T; try congruence; eexists; reflexivity. }
    destruct Hrt as [back ->]. f_equal.
    destruct (operator_eq (mkQuantity S v) back) eqn:He; [|reflexivity].
    apply B64.AreEqual_finite in He. cbn [amount] in He. destruct He as [He _].
    congruence.
Qed.

Lemma temperature_cast_keeps_not_finite_witness :
  CELSIUS <> KELVIN /\ is_finite (amount (_deg infinity)) = false /\
  round_trip KELVIN (_deg infinity) = Some false.
Proof.
  assert (Hne : CELSIUS <> KELVIN) by discriminate.
  assert (Hq : is_finite (amount (_deg infinity)) = false) by reflexivity.
  split; [exact Hne|]. split; [exact Hq|].
  exact (proj2 (temperature_cast_keeps_not_finite CELSIUS KELVIN (_deg infinity) Hne Hq)).
Defined.

(** X7: on a raw value of magnitude at most 10^12, the direct conversion
    between Fahrenheit and Kelvin and the conversion through Celsius yield
    quantities equal within [EPSILON], in both directions. *)
Theorem direct_cast_agrees_with_celsius_route (v : float) :
  (abs v <=? 1e12) = true ->
  (exists direct c via,
      cast_value KELVIN (_f v) = Some direct /\
      cast_value CELSIUS (_f v) = Some c /\ cast_value KELVIN c = Some via /\
      operator_eq direct via = true) /\
  (exists direct c via,
      cast_value FAHRENHEIT (_k v) = Some direct /\
      cast_value CELSIUS (_k v) = Some c /\ cast_value FAHRENHEIT c = Some via /\
      operator_eq direct via = true).
Proof.
  intros Hb. split; do 3 eexists;
    (split; [reflexivity|split; [reflexivity|split; [reflexivity|]]]).
  - exact (B64.direct_F_K_close v Hb).
  - exact (B64.direct_K_F_close v Hb).
Qed.

Lemma direct_cast_agrees_with_celsius_route_witness :
  (abs 79.0 <=? 1e12) = true /\
  exists direct c via,
    cast_value KELVIN (_f 79.0) = Some direct /\
    cast_value CELSIUS (_f 79.0) = Some c /\ cast_value KELVIN c = Some via /\
    operator_eq direct via = true.
Proof.
  assert (Hb : (abs 79.0 <=? 1e12) = true) by reflexivity.
  split; [exact Hb|].
  exact (proj1 (direct_cast_agrees_with_celsius_route 79.0 Hb)).
Defined.

(** X8: on a raw value of magnitude at most 10^12, a cast through the two
    other scales and back, in either order, yields a quantity equal to the
    original within [EPSILON]. *)
Theorem three_scale_cycle (S T U : Scale) (q : Q64 S) :
  S <> T -> T <> U -> U <> S -> (abs (amount q) <=? 1e12) = true ->
  exists t u back,
    cast_value T q = Some t /\ cast_value U t = Some u /\
    cast_value S u = Some back /\ operator_eq q back = true.
Proof.
  intros H1 H2 H3 Hb. destruct q as [v]. cbn [amount] in Hb.
  destruct S, T, U; try congruence; do 3 eexists;
    (split; [reflexivity|split; [reflexivity|split; [reflexivity|]]]).
  - exact (B64.cycle_C_F_K v Hb).
  - exact (B64.cycle_C_K_F v Hb).
  - exact (B64.cycle_F_C_K v Hb).
  - exact (B64.cycle_F_K_C v Hb).
  - exact (B64.cycle_K_C_F v Hb).
  - exact (B64.cycle_K_F_C v Hb).
Qed.

Lemma three_scale_cycle_witness :
  CELSIUS <> FAHRENHEIT /\ FAHRENHEIT <> KELVIN /\ KELVIN <> CELSIUS /\
  (abs (amount (_deg 36.5)) <=? 1e12) = true /\
  exists t u back,
    cast_value FAHRENHEIT (_deg 36.5) = Some t /\ cast_value KELVIN t = Some u /\
    cast_value CELSIUS u = Some back /\ operator_eq (_deg 36.5) back = true.
Proof.
  assert (H1 : CELSIUS <> FAHRENHEIT) by discriminate.
  assert (H2 : FAHRENHEIT <> KELVIN) by discriminate.
  assert (H3 : KELVIN <> CELSIUS) by discriminate.
  assert (Hb : (abs (amount (_deg 36.5)) <=? 1e12) = true) by reflexivity.
  split; [exact H1|]. split; [exact H2|]. split; [exact H3|]. split; [exact Hb|].
  exact (three_scale_cycle CELSIUS FAHRENHEIT KELVIN (_deg 36.5) H1 H2 H3 Hb).
Defined.

(** X9: on raw values of magnitude at most 10^12, [operator-] undoes
    [operator+] and [operator+] undoes [operator-] within [EPSILON]. *)
Theorem operator_add_sub_cancel (S : Scale) (a b : Q64 S) :
  (abs (amount a) <=? 1e12) = true -> (abs (amount b) <=? 1e12) = true ->
  operator_eq (operator_sub (operator_add a b) b) a = true /\
  operator_eq (operator_add (operator_sub a b) b) a = true.
Proof. intros Ha Hb. exact (B64.add_then_sub_close _ _ Ha Hb). Qed.

Lemma operator_add_sub_cancel_witness :
  (abs (amount (_deg 36.5)) <=? 1e12) = true /\
  (abs (amount (_deg 0.1)) <=? 1e12) = true /\
  operator_eq (operator_sub (operator_add (_deg 36.5) (_deg 0.1)) (_deg 0.1))
              (_deg 36.5) = true.
Proof.
  assert (Ha : (abs (amount (_deg 36.5)) <=? 1e12) = true) by reflexivity.
  assert (Hb : (abs (amount (_deg 0.1)) <=? 1e12) = true) by reflexivity.
  split; [exact Ha|]. split; [exact Hb|].
  exact (proj1 (operator_add_sub_cancel CELSIUS (_deg 36.5) (_deg 0.1) Ha Hb)).
Defined.

(** X10: on raw values of magnitude at most 10^12, [operator+] is
    associative within [EPSILON]. *)
Theorem operator_add_assoc_within_tolerance (S : Scale) (a b c : Q64 S) :
  (abs (amount a) <=? 1e12) = true -> (abs (amount b) <=? 1e12) = true ->
  (abs (amount c) <=? 1e12) = true ->
  operator_eq (operator_add (operator_add a b) c)
              (operator_add a (operator_add b c)) = true.
Proof. intros Ha Hb Hc. exact (B64.add_assoc_close _ _ _ Ha Hb Hc). Qed.

Lemma operator_add_assoc_within_tolerance_witness :
  (abs (amount (_k 0.1)) <=? 1e12) = true /\
  (abs (amount (_k 0.2)) <=? 1e12) = true /\
  (abs (amount (_k 0.3)) <=? 1e12) = true /\
  operator_eq (operator_add (operator_add (_k 0.1) (_k 0.2)) (_k 0.3))
              (operator_add (_k 0.1) (operator_add (_k 0.2) (_k 0.3))) = true.
Proof.
  assert (Ha : (abs (amount (_k 0.1)) <=? 1e12) = true) by reflexivity.
  assert (Hb : (abs (amount (_k 0.2)) <=? 1e12) = true) by reflexivity.
  assert (Hc : (abs (amount (_k 0.3)) <=? 1e12) = true) by reflexivity.
  split; [exact Ha|]. split; [exact Hb|]. split; [exact Hc|].
  exact (operator_add_assoc_within_tolerance KELVIN (_k 0.1) (_k 0.2) (_k 0.3) Ha Hb Hc).
Defined.

(** X11: on raw values of magnitude at most 10^12, two Fahrenheit
    quantities that are equal stay equal when both are cast to Celsius or
    both to Kelvin. *)
Theorem cast_from_fahrenheit_respects_eq (a b : Q64 FAHRENHEIT) :
  (abs (amount a) <=? 1e12) = true -> (abs (amount b) <=? 1e12) = true ->
  operator_eq a b = true ->
  forall T : Scale, T <> FAHRENHEIT ->
  exists a' b',
    cast_value T a = Some a' /\ cast_value T b = Some b' /\ operator_eq a' b' = true.
Proof.
  intros Ha Hb He T HT.
  destruct (B64.cast_from_F_keeps_equal _ _ Ha Hb He) as [HC HK].
  destruct T; try congruence; do 2 eexists;
    (split; [reflexivity|split; [reflexivity|]]); [exact HC|exact HK].
Qed.

Lemma cast_from_fahrenheit_respects_eq_witness :
  (abs (amount (_f 79.0)) <=? 1e12) = true /\
  (abs (amount (_f 79.0009)) <=? 1e12) = true /\
  operator_eq (_f 79.0) (_f 79.0009) = true /\
  CELSIUS <> FAHRENHEIT /\
  exists a' b',
    cast_value CELSIUS (_f 79.0) = Some a' /\ cast_value CELSIUS (_f 79.0009) = Some b' /\
    operator_eq a' b' = true.
Proof.
  assert (Ha : (abs (amount (_f 79.0)) <=? 1e12) = true) by reflexivity.
  assert (Hb : (abs (amount (_f 79.0009)) <=? 1e12) = true) by reflexivity.
  assert (He : operator_eq (_f 79.0) (_f 79.0009) = true) by reflexivity.
  assert (HT : CELSIUS <> FAHRENHEIT) by discriminate.
  split; [exact Ha|]. split; [exact Hb|]. split; [exact He|]. split; [exact HT|].
  exact (cast_from_fahrenheit_respects_eq (_f 79.0) (_f 79.0009) Ha Hb He CELSIUS HT).
Defined.

End MoreOnBinary64.

From Stdlib Require Lqa.

Section MoreOnExact.

Local Open Scope Q_scope.

(** X12: over the rationals the conversion from [T] to [S] undoes the
    conversion from [S] to [T], for each of the six pairs. *)
Theorem exact_conversions_inverse (S T : Scale) (v : Q) :
  S <> T ->
  exists w u, Convert S T v = Some w /\ Convert T S w = Some u /\ u == v.
Proof.
  intros Hne. destruct S, T; try congruence; do 2 eexists;
    (split; [reflexivity|split; [reflexivity|]]); simpl; field.
Qed.

Lemma exact_conversions_inverse_witness :
  CELSIUS <> FAHRENHEIT /\
  exists w u,
    Convert CELSIUS FAHRENHEIT 36.5 = Some w /\ Convert FAHRENHEIT CELSIUS w = Some u /\
    u == 36.5.
Proof.
  assert (Hne : CELSIUS <> FAHRENHEIT) by discriminate.
  split; [exact Hne|].
  exact (exact_conversions_inverse CELSIUS FAHRENHEIT 36.5 Hne).
Defined.

(** X13: over the rationals each of the six conversions is strictly
    increasing. *)
Theorem exact_conversions_increasing (S T : Scale) (a b : Q) :
  S <> T -> a < b ->
  exists a' b', Convert S T a = Some a' /\ Convert S T b = Some b' /\ a' < b'.
Proof.
  intros Hne Hab. destruct S, T; try congruence; do 2 eexists;
    (split; [reflexivity|split; [reflexivity|]]);
    cbn [lit exact add sub mul div]; unfold Qdiv;
    change (/ 5) with (1 # 5); change (/ 9) with (1 # 9); Lqa.lra.
Qed.

Lemma exact_conversions_increasing_witness :
  KELVIN <> FAHRENHEIT /\ 0 < 1 /\
  exists a' b',
    Convert KELVIN FAHRENHEIT 0 = Some a' /\ Convert KELVIN FAHRENHEIT 1 = Some b' /\
    a' < b'.
Proof.
  assert (Hne : KELVIN <> FAHRENHEIT) by discriminate.
  assert (Hab : 0 < 1) by reflexivity.
  split; [exact Hne|]. split; [exact Hab|].
  exact (exact_conversions_increasing KELVIN FAHRENHEIT 0 1 Hne Hab).
Defined.

End MoreOnExact.
